(** * pi_button_to_kbd: GPIO buttons to uinput keystrokes

    A shallow embedding of [main.c].  The program exports a set of GPIO
    pins through sysfs, opens a uinput keyboard, and then polls the pins'
    [value] files; every interrupt passes a clock check, a per-pin
    debounce test and a level check before the pin's keystrokes are
    written to the uinput device.

    Conventions of the embedding.
    - A C [int] is a [Z]; [to_int] writes out the 32-bit wrap-around.
    - The sysfs control files, the uinput device and stderr are
      output-only: what the program writes to them, and the final [close]
      of the uinput descriptor, is appended to a trace of [Action]s.
    - What the program reads from its environment (clock, level file,
      result of [open]/[fopen]) is an explicit input of the function that
      reads it.  Reading leaves no mark on the trace: the [open], [read]
      and [close] that [get_pin_state] performs on a [value] file, and the
      [read] that drains an interrupt, are not [Action]s.
    - [dbglog] is left out: [debug] is the constant 0 and nothing assigns
      it, so every [dbglog] call returns at its first line. *)

From Stdlib Require Import ZArith List Bool Lia Strings.Byte.
From stdpp Require Import base tactics list strings pretty.
Import ListNotations.
Local Open Scope Z_scope.

(** ** Constants of [main.c] *)

Definition EDGE_RISING : Z := 0x01.
Definition EDGE_FALLING : Z := 0x02.
Definition SEC_PER_YEAR : Z := 31536000.
Definition UP : Z := 0x0000.
Definition DOWN : Z := 0x1000.
Definition BOUNCE_MSEC : Z := 300.
Definition MAX_PINS : nat := 16.
Definition EDGE : Z := EDGE_FALLING.
Definition CLOCK_ERROR_SECONDS : Z := SEC_PER_YEAR.

(** Constants of the Linux headers the file includes through
    [linux/uinput.h] ([linux/input-event-codes.h], [linux/input.h]). *)
Definition EV_SYN : Z := 0x00.
Definition EV_KEY : Z := 0x01.
Definition SYN_REPORT : Z := 0.
Definition KEY_LEFTCTRL : Z := 29.
Definition KEY_R : Z := 19.
Definition KEY_SPACE : Z := 57.
Definition BUS_USB : Z := 0x03.

(** ** Machine integers *)

(** Conversion to a 32-bit signed [int] (two's complement wrap). *)
Definition to_int (z : Z) : Z := (z + 2 ^ 31) mod 2 ^ 32 - 2 ^ 31.

Definition INT_MAX : Z := 2 ^ 31 - 1.
Definition INT_MIN : Z := - 2 ^ 31.

Definition int_range (z : Z) : Prop := INT_MIN <= z <= INT_MAX.

(** Conversion to a [__u16] field of [struct input_event]. *)
Definition to_u16 (z : Z) : Z := z mod 2 ^ 16.

(** [abs] of [stdlib.h]: takes and returns an [int]. *)
Definition c_abs (x : Z) : Z := to_int (Z.abs (to_int x)).

(** Conversion of a [double] holding the integer [x] to [int].  In range
    the value is kept; out of range C leaves the result undefined, and the
    conversion instruction of the ARM cores the program targets
    saturates. *)
Definition double_to_int (x : Z) : Z :=
  if x <? INT_MIN then INT_MIN else if INT_MAX <? x then INT_MAX else x.

(** ** The mapping table *)

(** [struct _Mapping]: [keys] is the array the pointer designates,
    terminator included. *)
Record Mapping := { pin : Z; keys : list Z }.

Definition key_space : list Z :=
  [Z.lor KEY_SPACE DOWN; Z.lor KEY_SPACE UP; 0].

Definition key_ctrl_r : list Z :=
  [Z.lor KEY_LEFTCTRL DOWN; Z.lor KEY_R DOWN; Z.lor KEY_R UP;
   Z.lor KEY_LEFTCTRL UP; 0].

(** The table ends with the entry of pin 0, whose [keys] is [NULL]. *)
Definition mappings : list Mapping :=
  [ {| pin := 20; keys := key_space |};
    {| pin := 21; keys := key_ctrl_r |};
    {| pin := 0; keys := [] |} ].

(** ** Observable actions *)

(** The messages the program prints on stderr, by format string:
    ["Can't write to %s: %s\n"], ["Can't open /dev/uinput: %s\n"],
    ["Can't open GPIO device %s\n"] and
    ["Inernal error: pin %d with no mapping\n"]. *)
Inductive Diagnostic :=
| CantWrite (file : string)
| CantOpenUinput
| CantOpenGpio (file : string)
| NoMapping (pin : Z).

(** [struct input_event]; [emit_event] always stores a zero time stamp. *)
Record input_event := { ie_type : Z; ie_code : Z; ie_value : Z }.

Inductive Action :=
| FileWrite (file text : string)      (* fopen "w", fprintf, fclose *)
| Stderr (d : Diagnostic)
| SetEvBit (fd ev : Z)                (* ioctl UI_SET_EVBIT *)
| SetKeyBit (fd code : Z)             (* ioctl UI_SET_KEYBIT *)
| DevSetup (fd bustype vendor product : Z) (name : string)
| DevCreate (fd : Z)
| DevWrite (fd : Z) (ie : input_event) (* write of one input_event *)
| Close (fd : Z).                      (* close_uinput *)

Definition trace := list Action.

(** ** A process monad: a trace, and [exit] *)

Inductive Outcome (A : Type) :=
| Ret (a : A) (tr : trace)
| Exit (status : Z) (tr : trace).
Arguments Ret {A} a tr.
Arguments Exit {A} status tr.

Definition Proc (A : Type) : Type := trace -> Outcome A.

#[global] Instance proc_ret : MRet Proc := fun A a tr => Ret a tr.

#[global] Instance proc_bind : MBind Proc := fun A B k m tr =>
  match m tr with
  | Ret a tr' => k a tr'
  | Exit st tr' => Exit st tr'
  end.

(** What the parent sees of [exit (n)]: the low eight bits. *)
Definition exit_status (n : Z) : Z := Z.land n 0xFF.

Definition c_exit {A} (n : Z) : Proc A := fun tr => Exit (exit_status n) tr.

Definition emit (a : Action) : Proc unit := fun tr => Ret tt (tr ++ [a]).

(** [for] over the elements of an array. *)
Fixpoint for_each {A} (f : A -> Proc unit) (l : list A) : Proc unit :=
  match l with
  | [] => mret tt
  | x :: r => f x;; for_each f r
  end.

(** ** The environment of the set-up and tear-down code *)

(** Whether an [fopen] for writing succeeds and which descriptor an [open]
    returns may depend on everything done so far. *)
Record Env := {
  fopen_ok : trace -> string -> bool;
  open_fd : trace -> string -> Z;
  time_now : Z                         (* [time (NULL)] at start-up *)
}.

(** ** sysfs helpers *)

Definition write_to_file (env : Env) (file text : string) : Proc unit :=
  fun tr =>
    if fopen_ok env tr file
    then emit (FileWrite file text) tr
    else (emit (Stderr (CantWrite file));; c_exit (-1)) tr.

Definition gpio_file (pin : Z) (leaf : string) : string :=
  "/sys/class/gpio/gpio" +:+ pretty pin +:+ "/" +:+ leaf.

Definition unexport_pins (env : Env) (pins : list Z) : Proc unit :=
  for_each (fun pin => write_to_file env "/sys/class/gpio/unexport" (pretty pin))
           pins.

Definition export_pins (env : Env) (pins : list Z) : Proc unit :=
  for_each (fun pin =>
              write_to_file env "/sys/class/gpio/export" (pretty pin);;
              write_to_file env (gpio_file pin "direction") "in";;
              write_to_file env (gpio_file pin "edge") "both")
           pins.

(** [read (fd, buff, count)] on a file that has [avail] to deliver
    ([None]: the call fails): the return code and the bytes stored. *)
Definition c_read (avail : option (list Byte.byte)) (count : nat) : Z * list Byte.byte :=
  match avail with
  | None => (-1, [])
  | Some bs => let got := take count bs in (Z.of_nat (length got), got)
  end.

Definition char_code (b : Byte.byte) : Z := Z.of_N (Byte.to_N b).

(** [get_pin_state]: [avail] is what the pin's [value] file delivers. *)
Definition get_pin_state (avail : option (list Byte.byte)) : Z :=
  let '(rc, buff) := c_read avail 3 in
  if rc =? 2 then char_code (nth 0 buff Byte.x00) - char_code "0"%byte
  else -1.

(** ** uinput *)

(** The inner [while] loops over a [keys] array stop at its first zero
    entry. *)
Fixpoint keystrokes (ks : list Z) : list Z :=
  match ks with
  | [] => []
  | k :: r => if k =? 0 then [] else k :: keystrokes r
  end.

(** The loops [while (m->pin != 0)] visit the entries before the first
    one whose pin is 0. *)
Fixpoint table_entries (tbl : list Mapping) : list Mapping :=
  match tbl with
  | [] => []
  | m :: r => if pin m =? 0 then [] else m :: table_entries r
  end.

Definition declare_keys (fd : Z) (tbl : list Mapping) : list Action :=
  flat_map (fun m => map (fun k => SetKeyBit fd (Z.land k 0xFF))
                         (keystrokes (keys m)))
           (table_entries tbl).

Definition open_uinput (env : Env) (tbl : list Mapping) : Proc Z :=
  fun tr =>
    let fd := open_fd env tr "/dev/uinput" in
    if 0 <? fd
    then Ret fd (tr ++ [SetEvBit fd EV_KEY] ++ declare_keys fd tbl
                    ++ [DevSetup fd BUS_USB 0x1234 0x5678 "Dummy input device";
                        DevCreate fd])
    else (emit (Stderr CantOpenUinput);; c_exit (-1)) tr.

Definition close_uinput (fd : Z) : Proc unit := emit (Close fd).

Fixpoint get_mapping (tbl : list Mapping) (p : Z) : option Mapping :=
  match tbl with
  | [] => None
  | m :: r => if pin m =? 0 then None
              else if p =? pin m then Some m
              else get_mapping r p
  end.

Definition emit_event (uinput_fd type code val : Z) : list Action :=
  [DevWrite uinput_fd {| ie_type := to_u16 type; ie_code := to_u16 code;
                         ie_value := to_int val |}].

Definition emit_keystroke (uinput_fd key : Z) : list Action :=
  if negb (Z.land key DOWN =? 0)
  then emit_event uinput_fd EV_KEY (Z.land key 0xFF) 1
       ++ emit_event uinput_fd EV_SYN SYN_REPORT 0
  else emit_event uinput_fd EV_KEY (Z.land key 0xFF) 0
       ++ emit_event uinput_fd EV_SYN SYN_REPORT 0.

(** [button_pressed]: the actions it adds ([state] is only logged). *)
Definition button_pressed (tbl : list Mapping) (uinput_fd p state : Z)
  : list Action :=
  match get_mapping tbl p with
  | Some m => flat_map (emit_keystroke uinput_fd) (keystrokes (keys m))
  | None => [Stderr (NoMapping p)]
  end.

(** ** The polling loop *)

(** What the body of the [for] loop reads from its environment when it
    services one pin whose [revents] has [POLLPRI] set. *)
Record Wakeup := {
  time_check : Z;     (* [time (NULL)] in the test of the clock *)
  time_reset : Z;     (* [time (NULL)] assigned to [start] *)
  tv_sec : Z;         (* [gettimeofday] *)
  tv_usec : Z;
  value_avail : option (list Byte.byte)  (* the [value] file, for [get_pin_state] *)
}.

(** The variables of [main] the loop assigns, and the trace. *)
Record Loop := { start : Z; ticks : list Z; out : trace }.

(** [abs (time (NULL) - start) > CLOCK_ERROR_SECONDS] *)
Definition clock_changed (now start_ : Z) : bool :=
  CLOCK_ERROR_SECONDS <? c_abs (now - start_).

(** [msec] and [total_msec]; the sum is computed in [double], which holds
    it exactly, and converted to [int]. *)
Definition total_msec (w : Wakeup) (start_ : Z) : Z :=
  let msec := to_int (Z.quot (tv_usec w) 1000) in
  double_to_int ((tv_sec w - start_) * 1000 + msec).

(** [total_msec - ticks[i] > bounce_time && total_msec > 1000] *)
Definition debounce_ok (total tick : Z) : bool :=
  (BOUNCE_MSEC <? to_int (total - tick)) && (1000 <? total).

(** [(state == 0 && (edge & EDGE_FALLING))
     || (state == 1 && (edge & EDGE_RISING))] *)
Definition edge_match (state edge : Z) : bool :=
  ((state =? 0) && negb (Z.land edge EDGE_FALLING =? 0))
  || ((state =? 1) && negb (Z.land edge EDGE_RISING =? 0)).

(** The body of [if (fdset[i].revents & POLLPRI)]. *)
Definition service_pin (tbl : list Mapping) (pins : list Z)
    (edge uinput_fd : Z) (i : nat) (w : Wakeup) (s : Loop) : Loop :=
  let p := pins !!! i in
  if clock_changed (time_check w) (start s)
  then {| start := time_reset w; ticks := ticks s; out := out s |}
  else
    let total := total_msec w (start s) in
    if debounce_ok total (ticks s !!! i)
    then
      let state := get_pin_state (value_avail w) in
      {| start := start s;
         ticks := <[i := total]> (ticks s);
         out := if edge_match state edge
                then out s ++ button_pressed tbl uinput_fd p state
                else out s |}
    else s.

(** One return of [poll]: [revents !! i] is [Some (Some w)] when pin [i]
    has [POLLPRI] set. *)
Definition service_cycle (tbl : list Mapping) (pins : list Z)
    (edge uinput_fd : Z) (revents : list (option Wakeup)) (s : Loop) : Loop :=
  foldl (fun s i => match revents !! i with
                    | Some (Some w) => service_pin tbl pins edge uinput_fd i w s
                    | _ => s
                    end)
        s (seq 0 (length pins)).

(** [while (!quit)]: the list holds the cycles that run before the quit
    signal is seen. *)
Definition poll_loop (tbl : list Mapping) (pins : list Z)
    (edge uinput_fd : Z) (cycles : list (list (option Wakeup))) (s : Loop)
  : Loop :=
  foldl (fun s revents => service_cycle tbl pins edge uinput_fd revents s)
        s cycles.

(** ** [main] *)

Definition table_pins (tbl : list Mapping) : list Z :=
  map pin (table_entries tbl).

(** The loop that fills [fdset_base]. *)
Fixpoint open_values (env : Env) (pins : list Z) : Proc (list Z) :=
  match pins with
  | [] => mret []
  | p :: r => fun tr =>
      let s := gpio_file p "value" in
      let gpio_fd := open_fd env tr s in
      if gpio_fd <? 0
      then (emit (Stderr (CantOpenGpio s));; c_exit (-1)) tr
      else (fds ← open_values env r; mret (gpio_fd :: fds)) tr
  end.

(** The part of [main] before the loop. *)
Definition setup (env : Env) : Proc Z :=
  export_pins env (table_pins mappings);;
  uinput_fd ← open_uinput env mappings;
  open_values env (table_pins mappings);;
  mret uinput_fd.

Definition run_loop (env : Env) (uinput_fd : Z)
    (cycles : list (list (option Wakeup))) : Proc unit :=
  fun tr =>
    Ret tt (out (poll_loop mappings (table_pins mappings) EDGE uinput_fd cycles
                   {| start := time_now env;
                      ticks := replicate MAX_PINS 0;
                      out := tr |})).

(** The part of [main] after the loop. *)
Definition cleanup (env : Env) (uinput_fd : Z) : Proc unit :=
  unexport_pins env (table_pins mappings);;
  close_uinput uinput_fd.

(** Control that reaches the closing brace of [main] returns 0. *)
Definition main (env : Env) (cycles : list (list (option Wakeup))) : Proc Z :=
  uinput_fd ← setup env;
  run_loop env uinput_fd cycles;;
  cleanup env uinput_fd;;
  mret 0.

(** The exit status of the process and everything it did. *)
Definition run (env : Env) (cycles : list (list (option Wakeup))) : Z * trace :=
  match main env cycles [] with
  | Ret v tr => (exit_status v, tr)
  | Exit st tr => (st, tr)
  end.

(** * Vocabulary of the properties *)

(** ** Loop states *)

(** Every [ticks] entry is 0 or an accepted [total_msec], hence a
    non-negative [int]; the array has [MAX_PINS] entries. *)
Definition ticks_ok (s : Loop) : Prop :=
  length (ticks s) = MAX_PINS /\ Forall (fun t => 0 <= t <= INT_MAX) (ticks s).

(** Successive interrupts of one pin, one per return of [poll]. *)
Definition service_burst (tbl : list Mapping) (pins : list Z)
    (edge uinput_fd : Z) (i : nat) (ws : list Wakeup) (s : Loop) : Loop :=
  foldl (fun s w => service_pin tbl pins edge uinput_fd i w s) s ws.

(** The [revents] of a [poll] return on which only pin [i] is pending. *)
Definition only_pin (n i : nat) (w : Wakeup) : list (option Wakeup) :=
  <[i := Some w]> (replicate n None).

(** Consecutive elapsed times less than [d] milliseconds apart. *)
Fixpoint spaced_within (d : Z) (ts : list Z) : Prop :=
  match ts with
  | t1 :: (t2 :: _) as r => 0 <= t2 - t1 < d /\ spaced_within d r
  | _ => True
  end.

(** ** Device records *)

(** The record a key transition is written as, in the words of the
    mapping table: the scan code in the low byte, pressed when the [DOWN]
    bit (bit 12) is set. *)
Definition key_event (k : Z) : input_event :=
  {| ie_type := EV_KEY;
     ie_code := Z.land k 0xFF;
     ie_value := if Z.testbit k 12 then 1 else 0 |}.

Definition syn_event : input_event :=
  {| ie_type := EV_SYN; ie_code := SYN_REPORT; ie_value := 0 |}.

(** ** Traces *)

(** Tear-down actions: a write to the [unexport] file, or a [close]. *)
Definition is_cleanup (a : Action) : bool :=
  match a with
  | FileWrite f _ => String.eqb f "/sys/class/gpio/unexport"
  | Close _ => true
  | _ => false
  end.

Definition no_cleanup (tr : trace) : Prop :=
  Forall (fun a => is_cleanup a = false) tr.

(** A triple for [Proc]: from a trace in [P], the command returns in [Q]
    or exits in [E]. *)
Definition triple {A} (P : trace -> Prop) (m : Proc A)
    (Q : A -> trace -> Prop) (E : Z -> trace -> Prop) : Prop :=
  forall tr, P tr ->
    match m tr with
    | Ret a tr' => Q a tr'
    | Exit st tr' => E st tr'
    end.

(** How the set-up may exit: status 255, nothing torn down. *)
Definition setup_exit (st : Z) (tr : trace) : Prop :=
  st = 255 /\ no_cleanup tr.

(** ** Sample inputs *)

(** The level file of a pressed (active-low) and of a released switch. *)
Definition level_low : option (list Byte.byte) := Some ["0"%byte; Byte.x0a].
Definition level_high : option (list Byte.byte) := Some ["1"%byte; Byte.x0a].

(** An interrupt [ms] milliseconds after the second [base] of the wall
    clock. *)
Definition wakeup_at (base ms : Z) (level : option (list Byte.byte)) : Wakeup :=
  {| time_check := base + ms / 1000;
     time_reset := base + ms / 1000;
     tv_sec := base + ms / 1000;
     tv_usec := (ms mod 1000) * 1000;
     value_avail := level |}.

(** The loop state right after start-up at second [base]. *)
Definition fresh (base : Z) : Loop :=
  {| start := base; ticks := replicate MAX_PINS 0; out := [] |}.

(** Servicing pin [i] of the program's own table, uinput being
    descriptor 3. *)
Definition service (i : nat) (w : Wakeup) (s : Loop) : Loop :=
  service_pin mappings [20; 21] EDGE 3 i w s.

(** A burst on pin 20: interrupts 2000, 2200 and 2400 ms after a start-up
    at second 1000. *)
Definition burst_s1 : Loop := service 0 (wakeup_at 1000 2000 level_low) (fresh 1000).
Definition burst_s2 : Loop := service 0 (wakeup_at 1000 2200 level_low) burst_s1.
Definition burst_s3 : Loop := service 0 (wakeup_at 1000 2400 level_low) burst_s2.

(** A clock jump: pin 20 is pressed 60 s after the start-up at second
    1000; the clock then jumps two years ahead and the next interrupt of
    pin 20 meets the jump. *)
Definition jump_base : Z := 1000 + 2 * SEC_PER_YEAR.
Definition jump_s1 : Loop := service 0 (wakeup_at 1000 60000 level_low) (fresh 1000).
Definition jump_s2 : Loop := service 0 (wakeup_at jump_base 0 level_low) jump_s1.

(** Environments: one in which every call succeeds, and one in which the
    [edge] file of pin 21 cannot be opened. *)
Definition env_ok : Env :=
  {| fopen_ok := fun _ _ => true;
     open_fd := fun _ f => if String.eqb f "/dev/uinput" then 3 else 4;
     time_now := 1000 |}.

Definition env_no_edge21 : Env :=
  {| fopen_ok := fun _ f => negb (String.eqb f "/sys/class/gpio/gpio21/edge");
     open_fd := fun _ f => if String.eqb f "/dev/uinput" then 3 else 4;
     time_now := 1000 |}.

(** ** What the loop and the set-up write *)

(** A record written to the uinput descriptor: a key record or the
    report marker. *)
Definition device_write (ufd : Z) (a : Action) : Prop :=
  (exists k, a = DevWrite ufd (key_event k)) \/ a = DevWrite ufd syn_event.

(** The actions of the loop body: device records and the "no mapping"
    message. *)
Definition loop_action (ufd : Z) (a : Action) : Prop :=
  device_write ufd a \/ exists p, a = Stderr (NoMapping p).

(** A stored time is either kept or moved forward by more than the bounce
    window, to a value past the start-up grace. *)
Definition advanced (t t' : Z) : Prop :=
  t' = t \/ (t' - t > BOUNCE_MSEC /\ t' > 1000).

(** The three sysfs writes that export one pin, in program order. *)
Definition export_writes (p : Z) : list Action :=
  [FileWrite "/sys/class/gpio/export" (pretty p);
   FileWrite (gpio_file p "direction") "in";
   FileWrite (gpio_file p "edge") "both"].

(** Environments in which the [unexport] file cannot be opened, and in
    which the [export] file can be opened only once. *)
Definition env_no_unexport : Env :=
  {| fopen_ok := fun _ f => negb (String.eqb f "/sys/class/gpio/unexport");
     open_fd := fun _ f => if String.eqb f "/dev/uinput" then 3 else 4;
     time_now := 1000 |}.

Definition env_one_export : Env :=
  {| fopen_ok := fun tr f =>
       negb (String.eqb f "/sys/class/gpio/export" && (0 <? length tr)%nat);
     open_fd := fun _ f => if String.eqb f "/dev/uinput" then 3 else 4;
     time_now := 1000 |}.

(** What the set-up of the program writes when every call succeeds and
    [/dev/uinput] is opened as descriptor 3. *)
Definition setup_ok_trace : trace :=
  [FileWrite "/sys/class/gpio/export" "20";
   FileWrite "/sys/class/gpio/gpio20/direction" "in";
   FileWrite "/sys/class/gpio/gpio20/edge" "both";
   FileWrite "/sys/class/gpio/export" "21";
   FileWrite "/sys/class/gpio/gpio21/direction" "in";
   FileWrite "/sys/class/gpio/gpio21/edge" "both";
   SetEvBit 3 EV_KEY;
   SetKeyBit 3 KEY_SPACE; SetKeyBit 3 KEY_SPACE;
   SetKeyBit 3 KEY_LEFTCTRL; SetKeyBit 3 KEY_R;
   SetKeyBit 3 KEY_R; SetKeyBit 3 KEY_LEFTCTRL;
   DevSetup 3 BUS_USB 0x1234 0x5678 "Dummy input device";
   DevCreate 3].

(** ** The fallible calls of the set-up *)

(** A call of the set-up that can fail, with the trace at which it is
    made: an [fopen] for writing of a sysfs file, the [open] of
    [/dev/uinput], the [open] of a pin's [value] file. *)
Inductive SetupCall :=
| CallFopen (tr : trace) (file : string)
| CallOpenUinput (tr : trace)
| CallOpenValue (tr : trace) (file : string).

(** The environment makes the call fail: [fopen] returns [NULL], [open]
    returns a descriptor that is not positive ([/dev/uinput]) or that is
    negative ([value]). *)
Definition call_fails (env : Env) (c : SetupCall) : bool :=
  match c with
  | CallFopen tr file => negb (fopen_ok env tr file)
  | CallOpenUinput tr => open_fd env tr "/dev/uinput" <=? 0
  | CallOpenValue tr file => open_fd env tr file <? 0
  end.

(** The [fopen]s that export the pins [pins], pin after pin, each at the
    trace the writes before it leave. *)
Fixpoint export_calls (tr : trace) (pins : list Z) : list SetupCall :=
  match pins with
  | [] => []
  | p :: r =>
      [CallFopen tr "/sys/class/gpio/export";
       CallFopen (tr ++ [FileWrite "/sys/class/gpio/export" (pretty p)])
                 (gpio_file p "direction");
       CallFopen (tr ++ [FileWrite "/sys/class/gpio/export" (pretty p);
                         FileWrite (gpio_file p "direction") "in"])
                 (gpio_file p "edge")]
      ++ export_calls (tr ++ export_writes p) r
  end.

(** The trace a successful [open_uinput] leaves when it gets descriptor
    [ufd] at trace [tr]. *)
Definition uinput_ready (tr : trace) (ufd : Z) : trace :=
  tr ++ [SetEvBit ufd EV_KEY] ++ declare_keys ufd mappings
     ++ [DevSetup ufd BUS_USB 0x1234 0x5678 "Dummy input device";
         DevCreate ufd].

(** Every fallible call of the set-up of [main], in program order: the
    exports of the pins of the table, the [open] of [/dev/uinput] once
    they are all exported, and the [open] of each pin's [value] file once
    the device is created. *)
Definition setup_calls (env : Env) : list SetupCall :=
  let exported := flat_map export_writes (table_pins mappings) in
  let ufd := open_fd env exported "/dev/uinput" in
  export_calls [] (table_pins mappings)
  ++ [CallOpenUinput exported]
  ++ map (fun p => CallOpenValue (uinput_ready exported ufd)
                                 (gpio_file p "value"))
         (table_pins mappings).

(** Environments in which [/dev/uinput] cannot be opened, and in which
    the [value] file of pin 21 cannot be opened. *)
Definition env_no_uinput : Env :=
  {| fopen_ok := fun _ _ => true;
     open_fd := fun _ f => if String.eqb f "/dev/uinput" then -1 else 4;
     time_now := 1000 |}.

Definition env_no_value21 : Env :=
  {| fopen_ok := fun _ _ => true;
     open_fd := fun _ f =>
       if String.eqb f "/dev/uinput" then 3
       else if String.eqb f "/sys/class/gpio/gpio21/value" then -1 else 4;
     time_now := 1000 |}.


Ltac int_bounds := unfold int_range, INT_MIN, INT_MAX in *; lia.

(** * Properties *)

(** ** Machine arithmetic *)

Lemma to_int_small z : int_range z -> to_int z = z.
Proof. intros H. unfold to_int. rewrite Z.mod_small; int_bounds. Qed.

Lemma to_int_range z : int_range (to_int z).
Proof.
  unfold to_int.
  pose proof (Z.mod_pos_bound (z + 2 ^ 31) (2 ^ 32) ltac:(lia)). int_bounds.
Qed.


Lemma double_to_int_range x : int_range (double_to_int x).
Proof. unfold double_to_int. repeat case_match; int_bounds. Qed.

Lemma double_to_int_small x : int_range x -> double_to_int x = x.
Proof. unfold double_to_int. intros H. repeat case_match; int_bounds. Qed.

Lemma total_msec_range w st : int_range (total_msec w st).
Proof. apply double_to_int_range. Qed.

Lemma land_0xFF k : Z.land k 0xFF = k mod 256.
Proof. change 0xFF with (Z.ones 8). by rewrite Z.land_ones. Qed.

Lemma to_u16_low_byte k : to_u16 (Z.land k 0xFF) = Z.land k 0xFF.
Proof.
  rewrite land_0xFF. unfold to_u16.
  pose proof (Z.mod_pos_bound k 256 ltac:(lia)).
  rewrite Z.mod_small; lia.
Qed.

Lemma land_DOWN_testbit k : (Z.land k DOWN =? 0) = negb (Z.testbit k 12).
Proof.
  assert (Hbit : forall n, 0 <= n ->
            Z.testbit (Z.land k DOWN) n = (n =? 12) && Z.testbit k 12).
  { intros n Hn. rewrite Z.land_spec. change DOWN with (2 ^ 12).
    rewrite Z.pow2_bits_eqb by lia.
    destruct (Z.eqb_spec 12 n) as [<-|Hne].
    - by rewrite andb_true_r.
    - rewrite andb_false_r. symmetry. apply andb_false_iff. left.
      apply Z.eqb_neq. lia. }
  destruct (Z.testbit k 12) eqn:Hk; simpl.
  - apply Z.eqb_neq. intros H0.
    specialize (Hbit 12 ltac:(lia)). rewrite H0, Z.bits_0 in Hbit. done.
  - apply Z.eqb_eq. apply Z.bits_inj'. intros n Hn.
    rewrite Hbit, Z.bits_0 by done. apply andb_false_r.
Qed.

(** ** The tests of the loop body *)


(** On a non-negative stored time the C test, with its wrap-around, is the
    test on unbounded integers. *)
Lemma debounce_ok_spec total tick :
  int_range total -> 0 <= tick <= INT_MAX ->
  debounce_ok total tick = true <-> total - tick > BOUNCE_MSEC /\ total > 1000.
Proof.
  unfold debounce_ok, BOUNCE_MSEC.
  intros Ht Hk. rewrite andb_true_iff, !Z.ltb_lt. split.
  - intros [H1 H2]. split; [|lia].
    rewrite to_int_small in H1; int_bounds.
  - intros [H1 H2]. split; [|lia].
    rewrite to_int_small; int_bounds.
Qed.



(** ** Reachable loop states *)

Lemma ticks_ok_lookup s i :
  ticks_ok s -> 0 <= ticks s !!! i <= INT_MAX.
Proof.
  intros [_ Hall]. rewrite list_lookup_total_alt.
  destruct (ticks s !! i) as [t|] eqn:Hi; simpl.
  - by apply (Forall_lookup_1 _ _ _ _ Hall Hi).
  - unfold inhabitant, Z.inhabited, INT_MAX. lia.
Qed.

(** The state in which [main] enters the loop. *)
Lemma initial_ticks_ok st tr :
  ticks_ok {| start := st; ticks := replicate MAX_PINS 0; out := tr |}.
Proof.
  split; cbn [ticks].
  - apply length_replicate.
  - apply Forall_replicate. unfold INT_MAX. lia.
Qed.

Lemma fresh_ticks_ok base : ticks_ok (fresh base).
Proof. apply initial_ticks_ok. Qed.

Section ServicePin.

Context (tbl : list Mapping) (pins : list Z) (edge fd : Z).


Lemma service_pin_rejected (i : nat) w s :
  clock_changed (time_check w) (start s) = false ->
  debounce_ok (total_msec w (start s)) (ticks s !!! i) = false ->
  service_pin tbl pins edge fd i w s = s.
Proof. intros Hc Hd. unfold service_pin. by rewrite Hc, Hd. Qed.

Lemma service_pin_accepted (i : nat) w s :
  clock_changed (time_check w) (start s) = false ->
  debounce_ok (total_msec w (start s)) (ticks s !!! i) = true ->
  service_pin tbl pins edge fd i w s
  = {| start := start s;
       ticks := <[i := total_msec w (start s)]> (ticks s);
       out := if edge_match (get_pin_state (value_avail w)) edge
              then out s ++ button_pressed tbl fd (pins !!! i)
                                 (get_pin_state (value_avail w))
              else out s |}.
Proof. intros Hc Hd. unfold service_pin. by rewrite Hc, Hd. Qed.

Lemma service_pin_ticks_ok (i : nat) w s :
  ticks_ok s -> ticks_ok (service_pin tbl pins edge fd i w s).
Proof.
  intros [Hlen Hall]. unfold service_pin.
  destruct (clock_changed _ _); [done|].
  destruct (debounce_ok _ _) eqn:Hd; [|done].
  split; simpl; [by rewrite length_insert|].
  apply Forall_insert; [done|].
  pose proof (total_msec_range w (start s)) as Hr.
  apply andb_true_iff in Hd as [_ Hd%Z.ltb_lt].
  int_bounds.
Qed.

Lemma service_cycle_ticks_ok revents s :
  ticks_ok s -> ticks_ok (service_cycle tbl pins edge fd revents s).
Proof.
  unfold service_cycle. generalize (seq 0 (length pins)) as idx.
  intros idx. revert s.
  induction idx as [|i idx IH]; intros s Hs; simpl; [done|].
  apply IH. destruct (revents !! i) as [[w|]|]; [|done..].
  by apply service_pin_ticks_ok.
Qed.

(** Every state the loop of [main] reaches satisfies [ticks_ok]. *)
Lemma poll_loop_ticks_ok cycles s :
  ticks_ok s -> ticks_ok (poll_loop tbl pins edge fd cycles s).
Proof.
  unfold poll_loop. revert s.
  induction cycles as [|c cycles IH]; intros s Hs; simpl; [done|].
  apply IH. by apply service_cycle_ticks_ok.
Qed.

Lemma service_pin_ticks_other (i j : nat) w s :
  i <> j ->
  ticks (service_pin tbl pins edge fd i w s) !! j = ticks s !! j.
Proof.
  intros Hne. unfold service_pin.
  destruct (clock_changed _ _); [done|].
  destruct (debounce_ok _ _); [|done].
  cbn [ticks]. by apply list_lookup_insert_ne.
Qed.

(** ** One pin at a time *)

Lemma only_pin_lookup n (i j : nat) w w' :
  only_pin n i w !! j = Some (Some w') -> j = i /\ w' = w.
Proof.
  unfold only_pin. intros H.
  destruct (decide (i = j)) as [->|Hne].
  - destruct (decide (j < length (replicate n (@None Wakeup)))%nat) as [Hlt|Hge].
    + rewrite list_lookup_insert_eq in H by done. by simplify_eq.
    + rewrite list_insert_ge in H by lia.
      apply lookup_replicate in H as [? _]. done.
  - rewrite list_lookup_insert_ne in H by done.
    apply lookup_replicate in H as [? _]. done.
Qed.

Lemma foldl_unchanged {A B} (f : A -> B -> A) (l : list B) (a : A) :
  (forall x, x ∈ l -> f a x = a) -> foldl f a l = a.
Proof.
  induction l as [|x l IH]; simpl; [done|]. intros H.
  rewrite (H x) by apply list_elem_of_here.
  apply IH. intros y Hy. apply H. by apply list_elem_of_further.
Qed.

(** A [poll] return with only pin [i] pending runs the loop body once,
    for that pin. *)
Lemma service_cycle_only_pin (i : nat) w s :
  (i < length pins)%nat ->
  service_cycle tbl pins edge fd (only_pin (length pins) i w) s
  = service_pin tbl pins edge fd i w s.
Proof.
  intros Hi. unfold service_cycle.
  set (step := fun s0 j => match only_pin (length pins) i w !! j with
                           | Some (Some w0) => service_pin tbl pins edge fd j w0 s0
                           | _ => s0
                           end).
  assert (Hother : forall j s0, j <> i -> step s0 j = s0).
  { intros j s0 Hne. unfold step.
    destruct (only_pin (length pins) i w !! j) as [[w0|]|] eqn:Hj; [|done..].
    by apply only_pin_lookup in Hj as [? _]. }
  assert (Hhere : step s i = service_pin tbl pins edge fd i w s).
  { unfold step, only_pin. rewrite list_lookup_insert_eq; [done|].
    by rewrite length_replicate. }
  assert (Hseq : seq 0 (length pins)
                 = seq 0 i ++ i :: seq (S i) (length pins - S i)).
  { replace (length pins) with (i + S (length pins - S i))%nat at 1 by lia.
    by rewrite seq_app. }
  rewrite Hseq, foldl_app. cbn [foldl].
  rewrite (foldl_unchanged step (seq 0 i) s).
  - rewrite Hhere. apply foldl_unchanged.
    intros j Hj%elem_of_seq. apply Hother. lia.
  - intros j Hj%elem_of_seq. apply Hother. lia.
Qed.

(** Interrupts of pin [i] alone, one per [poll] return, are a burst. *)
Lemma poll_loop_only_pin (i : nat) ws s :
  (i < length pins)%nat ->
  poll_loop tbl pins edge fd (map (only_pin (length pins) i) ws) s
  = service_burst tbl pins edge fd i ws s.
Proof.
  intros Hi. unfold poll_loop, service_burst. revert s.
  induction ws as [|w ws IH]; intros s; simpl; [done|].
  by rewrite service_cycle_only_pin, IH.
Qed.

(** A pin without [POLLPRI] keeps its stored time however many other pins
    the [for] loop services. *)
Lemma service_cycle_other_lines revents (j : nat) s :
  (forall w, revents !! j <> Some (Some w)) ->
  ticks (service_cycle tbl pins edge fd revents s) !! j = ticks s !! j.
Proof.
  intros Hj. unfold service_cycle.
  generalize (seq 0 (length pins)) as idx. intros idx. revert s.
  induction idx as [|i idx IH]; intros s; simpl; [done|].
  rewrite IH. destruct (revents !! i) as [[w|]|] eqn:Hi; [|done..].
  apply service_pin_ticks_other. intros ->. by apply (Hj w).
Qed.

(** ** Clock guard *)


(** ** Debounce *)


(** C9.  Servicing pin [i], whatever the outcome, leaves the [ticks] entry
    of every other pin [j] as it was. *)
Theorem debounce_per_line (i j : nat) w s :
  i <> j ->
  ticks (service_pin tbl pins edge fd i w s) !! j = ticks s !! j.
Proof. apply service_pin_ticks_other. Qed.

(** C3, amended.  Once an interrupt of pin [i] has passed the debounce
    test, every later interrupt of that pin whose elapsed time is no more
    than [BOUNCE_MSEC] above the accepted one is rejected: a burst that
    lies within the bounce window of its first, accepted, interrupt leaves
    the state, trace included, as that first interrupt left it. *)
Theorem burst_lockout (i : nat) w ws s :
  ticks_ok s -> (i < MAX_PINS)%nat ->
  clock_changed (time_check w) (start s) = false ->
  total_msec w (start s) - ticks s !!! i > BOUNCE_MSEC ->
  total_msec w (start s) > 1000 ->
  Forall (fun w' =>
            clock_changed (time_check w') (start s) = false /\
            total_msec w' (start s) - total_msec w (start s) <= BOUNCE_MSEC)
         ws ->
  ticks (service_pin tbl pins edge fd i w s) !! i
  = Some (total_msec w (start s)) /\
  service_burst tbl pins edge fd i ws (service_pin tbl pins edge fd i w s)
  = service_pin tbl pins edge fd i w s.
Proof.
  intros Hok Hi Hclock Hgap Hgrace Hws.
  assert (Hlen : (i < length (ticks s))%nat) by (destruct Hok as [-> _]; done).
  pose proof (service_pin_ticks_ok i w s Hok) as Hok1.
  assert (Hdeb : debounce_ok (total_msec w (start s)) (ticks s !!! i) = true).
  { apply debounce_ok_spec;
      [apply total_msec_range | by apply ticks_ok_lookup | done]. }
  pose proof (service_pin_accepted i w s Hclock Hdeb) as Hs1.
  set (s1 := service_pin tbl pins edge fd i w s) in *.
  assert (Hstart : start s1 = start s) by (by rewrite Hs1).
  assert (Htick : ticks s1 !!! i = total_msec w (start s)).
  { rewrite Hs1. cbn [ticks]. by apply list_lookup_total_insert_eq. }
  split.
  { rewrite Hs1. cbn [ticks]. by apply list_lookup_insert_eq. }
  clearbody s1. clear Hs1.
  induction Hws as [|w' ws [Hc' Hd'] _ IH]; [done|].
  unfold service_burst in *. cbn [foldl].
  rewrite service_pin_rejected; [exact IH | by rewrite Hstart |].
  rewrite Hstart, Htick.
  apply not_true_is_false. intros Hd.
  apply debounce_ok_spec in Hd as [Hd _].
  - lia.
  - apply total_msec_range.
  - pose proof (total_msec_range w (start s)) as Hr. int_bounds.
Qed.

(** ** Edge check *)


(** ** Emission *)

Lemma emit_keystroke_spec (ufd k : Z) :
  emit_keystroke ufd k = [DevWrite ufd (key_event k); DevWrite ufd syn_event].
Proof.
  unfold emit_keystroke, emit_event, key_event, syn_event.
  rewrite land_DOWN_testbit, negb_involutive, to_u16_low_byte.
  destruct (Z.testbit k 12); reflexivity.
Qed.

Lemma keystrokes_prefix ks rest :
  Forall (fun k => k <> 0) ks -> keystrokes (ks ++ 0 :: rest) = ks.
Proof.
  induction 1 as [|k ks Hk _ IH]; simpl; [done|].
  apply Z.eqb_neq in Hk as ->. by rewrite IH.
Qed.

Lemma button_pressed_writes p st m :
  get_mapping tbl p = Some m ->
  button_pressed tbl fd p st
  = flat_map (fun k => [DevWrite fd (key_event k); DevWrite fd syn_event])
             (keystrokes (keys m)).
Proof.
  intros Hm. unfold button_pressed. rewrite Hm.
  induction (keystrokes (keys m)) as [|k ks IH]; simpl; [done|].
  by rewrite emit_keystroke_spec, IH.
Qed.

(** C6.  When pin [i]'s mapping lists the [N] transitions [ks] before its
    terminator, an accepted and edge-matched event appends, in the order
    of [ks], the key record of each transition followed by one
    [EV_SYN]/[SYN_REPORT] record: [2 * N] writes.  The key record carries
    value 1 for a [DOWN] entry and 0 for an [UP] entry. *)
Theorem emit_sequence_order (i : nat) w s m ks rest :
  clock_changed (time_check w) (start s) = false ->
  debounce_ok (total_msec w (start s)) (ticks s !!! i) = true ->
  edge_match (get_pin_state (value_avail w)) edge = true ->
  get_mapping tbl (pins !!! i) = Some m ->
  keys m = ks ++ 0 :: rest ->
  Forall (fun k => k <> 0) ks ->
  out (service_pin tbl pins edge fd i w s)
  = out s ++ flat_map (fun k => [DevWrite fd (key_event k);
                                 DevWrite fd syn_event]) ks /\
  length (flat_map (fun k => [DevWrite fd (key_event k);
                              DevWrite fd syn_event]) ks)
  = (2 * length ks)%nat.
Proof.
  intros Hclock Hdeb Hedge Hm Hkeys Hnz. split.
  - rewrite service_pin_accepted by done. cbn [out]. rewrite Hedge.
    rewrite (button_pressed_writes _ _ _ Hm), Hkeys.
    by rewrite keystrokes_prefix.
  - clear. induction ks as [|k ks IH]; simpl; [done|].
    rewrite IH. lia.
Qed.

(** ** Lookup *)

Lemma get_mapping_None p :
  Forall (fun m => pin m <> p) (table_entries tbl) -> get_mapping tbl p = None.
Proof.
  induction tbl as [|m tbl' IH]; simpl; [done|].
  destruct (pin m =? 0); [done|].
  intros [Hm Hrest]%Forall_cons.
  destruct (Z.eqb_spec p (pin m)) as [->|_]; [done|]. by apply IH.
Qed.

(** C8.  A pin [p] that no entry of the table names is looked up as
    [None].  An accepted, edge-matched event of such a pin writes the
    "no mapping" message to stderr and nothing to the device, stores the
    pin's time as usual, and hands the loop state on: the pin after it in
    the same [poll] return is serviced next. *)
Theorem unmapped_pin_logged (i : nat) w s p :
  Forall (fun m => pin m <> p) (table_entries tbl) ->
  pins !!! i = p ->
  clock_changed (time_check w) (start s) = false ->
  debounce_ok (total_msec w (start s)) (ticks s !!! i) = true ->
  edge_match (get_pin_state (value_avail w)) edge = true ->
  get_mapping tbl p = None /\
  service_pin tbl pins edge fd i w s
  = {| start := start s;
       ticks := <[i := total_msec w (start s)]> (ticks s);
       out := out s ++ [Stderr (NoMapping p)] |} /\
  (forall q w' s0,
     service_cycle tbl [p; q] edge fd [Some w; Some w'] s0
     = service_pin tbl [p; q] edge fd 1 w'
         (service_pin tbl [p; q] edge fd 0 w s0)).
Proof.
  intros Hno Hp Hclock Hdeb Hedge.
  pose proof (get_mapping_None p Hno) as Hnone.
  split; [done|]. split; [|done].
  rewrite service_pin_accepted by done. rewrite Hedge, Hp.
  unfold button_pressed. by rewrite Hnone.
Qed.

End ServicePin.

(** C10.  For every entry [k], [emit_keystroke] writes a key record whose
    code is the low eight bits of [k] and whose value is 1 when bit
    [DOWN] (0x1000) of [k] is set and 0 otherwise.  Tagging a scan code
    [c] with [DOWN] or [UP] and masking leaves [c mod 256], so a scan code
    above 0xFF is cut to its low byte, in the records written and in the
    key bits [open_uinput] declares alike: 0x110 tagged [DOWN] is written
    as code 0x10. *)
Theorem keystroke_low_byte fd k c tbl :
  emit_keystroke fd k
  = [DevWrite fd {| ie_type := EV_KEY;
                    ie_code := k mod 256;
                    ie_value := if Z.land k DOWN =? 0 then 0 else 1 |};
     DevWrite fd syn_event]
  /\ Z.land (Z.lor c DOWN) 0xFF = c mod 256
  /\ Z.land (Z.lor c UP) 0xFF = c mod 256
  /\ declare_keys fd tbl
     = map (fun k => SetKeyBit fd (k mod 256))
           (flat_map (fun m => keystrokes (keys m)) (table_entries tbl))
  /\ emit_keystroke fd (Z.lor 0x110 DOWN)
     = [DevWrite fd {| ie_type := EV_KEY; ie_code := 0x10; ie_value := 1 |};
        DevWrite fd syn_event].
Proof.
  split; [|split; [|split; [|split]]].
  - rewrite emit_keystroke_spec. unfold key_event.
    rewrite land_0xFF, land_DOWN_testbit.
    by destruct (Z.testbit k 12).
  - rewrite Z.land_lor_distr_l. change (Z.land DOWN 0xFF) with 0.
    by rewrite Z.lor_0_r, land_0xFF.
  - unfold UP. by rewrite Z.lor_0_r, land_0xFF.
  - unfold declare_keys.
    induction (table_entries tbl) as [|m ms IH]; simpl; [done|].
    rewrite IH, map_app. f_equal.
    apply map_ext. intros a. by rewrite land_0xFF.
  - by rewrite emit_keystroke_spec.
Qed.

(** ** Exit status *)

Section Setup.

Context (env : Env).

Lemma triple_bind {A B} P (m : Proc A) (k : A -> Proc B) Q R E :
  triple P m Q E -> (forall a, triple (Q a) (k a) R E) ->
  triple P (m ≫= k) R E.
Proof.
  intros Hm Hk tr HP. specialize (Hm tr HP).
  unfold mbind, proc_bind. destruct (m tr) as [a tr'|st tr']; [|done].
  by apply Hk.
Qed.

Lemma triple_ret {A} (P : trace -> Prop) (a : A) E :
  triple P (mret a) (fun _ => P) E.
Proof. intros tr HP. done. Qed.

Lemma triple_for_each {A} (I : trace -> Prop) (f : A -> Proc unit) l E :
  (forall x, triple I (f x) (fun _ => I) E) ->
  triple I (for_each f l) (fun _ => I) E.
Proof.
  intros Hf. induction l as [|x l IH]; simpl.
  - apply triple_ret.
  - eapply triple_bind; [apply Hf|]. intros ?. apply IH.
Qed.

(** How the three fallible calls of the set-up end. *)
Lemma write_to_file_unfold file text tr :
  write_to_file env file text tr
  = if fopen_ok env tr file
    then Ret tt (tr ++ [FileWrite file text])
    else Exit 255 (tr ++ [Stderr (CantWrite file)]).
Proof. unfold write_to_file. by destruct (fopen_ok env tr file). Qed.

Lemma open_uinput_fail tbl tr :
  open_fd env tr "/dev/uinput" <= 0 ->
  open_uinput env tbl tr = Exit 255 (tr ++ [Stderr CantOpenUinput]).
Proof.
  intros Hfd. unfold open_uinput.
  by apply Z.ltb_ge in Hfd as ->.
Qed.

Lemma open_values_fail p pins tr :
  open_fd env tr (gpio_file p "value") < 0 ->
  open_values env (p :: pins) tr
  = Exit 255 (tr ++ [Stderr (CantOpenGpio (gpio_file p "value"))]).
Proof.
  intros Hfd. cbn [open_values].
  by apply Z.ltb_lt in Hfd as ->.
Qed.

Lemma for_each_app_ret {A} (f : A -> Proc unit) l1 l2 tr tr1 :
  for_each f l1 tr = Ret tt tr1 ->
  for_each f (l1 ++ l2) tr = for_each f l2 tr1.
Proof.
  revert tr. induction l1 as [|x l1 IH]; intros tr; simpl.
  - unfold mret, proc_ret. by intros [= ->].
  - unfold mbind, proc_bind. destruct (f x tr) as [[] tr'|]; [|done].
    apply IH.
Qed.

(** When the [export] file cannot be opened for a pin [p], after the pins
    [before] it were exported in full, the process exits on the spot with
    status 255: the trace is what exporting [before] left, followed by the
    diagnostic, and the pins after [p] are never touched. *)
Lemma export_pins_fail before p rest tr tr1 :
  export_pins env before tr = Ret tt tr1 ->
  fopen_ok env tr1 "/sys/class/gpio/export" = false ->
  export_pins env (before ++ p :: rest) tr
  = Exit 255 (tr1 ++ [Stderr (CantWrite "/sys/class/gpio/export")]).
Proof.
  intros Hbefore Hfail. unfold export_pins in *.
  rewrite (for_each_app_ret _ _ _ _ _ Hbefore). cbn [for_each].
  unfold mbind, proc_bind. by rewrite write_to_file_unfold, Hfail.
Qed.

Lemma no_cleanup_snoc tr a :
  no_cleanup tr -> is_cleanup a = false -> no_cleanup (tr ++ [a]).
Proof. intros Htr Ha. apply Forall_app. split; [done|]. by constructor. Qed.

Lemma triple_write_to_file file text :
  String.eqb file "/sys/class/gpio/unexport" = false ->
  triple no_cleanup (write_to_file env file text) (fun _ => no_cleanup)
         setup_exit.
Proof.
  intros Hfile tr Htr. rewrite write_to_file_unfold.
  destruct (fopen_ok env tr file).
  - by apply no_cleanup_snoc.
  - split; [done|]. by apply no_cleanup_snoc.
Qed.

Lemma triple_export_pins pins :
  triple no_cleanup (export_pins env pins) (fun _ => no_cleanup) setup_exit.
Proof.
  apply triple_for_each. intros p.
  eapply triple_bind; [by apply triple_write_to_file|]. intros ?.
  eapply triple_bind; [by apply triple_write_to_file|]. intros ?.
  by apply triple_write_to_file.
Qed.

Lemma triple_open_uinput tbl :
  triple no_cleanup (open_uinput env tbl) (fun _ => no_cleanup) setup_exit.
Proof.
  intros tr Htr. unfold open_uinput.
  destruct (0 <? open_fd env tr "/dev/uinput").
  - repeat (apply Forall_app; split); [done|by repeat constructor| |].
    + unfold declare_keys.
      induction (table_entries tbl) as [|m ms IH]; simpl; [constructor|].
      apply Forall_app. split; [|done].
      induction (keystrokes (keys m)); by constructor.
    + by repeat constructor.
  - split; [done|]. by apply no_cleanup_snoc.
Qed.

Lemma triple_open_values pins :
  triple no_cleanup (open_values env pins) (fun _ => no_cleanup) setup_exit.
Proof.
  induction pins as [|p pins IH]; cbn [open_values].
  - apply triple_ret.
  - intros tr Htr.
    destruct (open_fd env tr (gpio_file p "value") <? 0).
    + split; [done|]. by apply no_cleanup_snoc.
    + specialize (IH tr Htr). unfold mbind, proc_bind.
      by destruct (open_values env pins tr).
Qed.

Lemma triple_setup :
  triple no_cleanup (setup env) (fun _ => no_cleanup) setup_exit.
Proof.
  unfold setup.
  eapply triple_bind; [apply triple_export_pins|]. intros ?.
  eapply triple_bind; [apply triple_open_uinput|]. intros ufd.
  eapply triple_bind; [apply triple_open_values|]. intros ?.
  apply triple_ret.
Qed.

Lemma unexport_pins_outcome pins tr :
  match unexport_pins env pins tr with
  | Ret _ tr' =>
      tr' = tr ++ map (fun p => FileWrite "/sys/class/gpio/unexport" (pretty p))
                      pins
  | Exit st _ => st = 255
  end.
Proof.
  unfold unexport_pins. revert tr.
  induction pins as [|p pins IH]; intros tr; simpl.
  - by rewrite app_nil_r.
  - unfold mbind, proc_bind. rewrite write_to_file_unfold.
    destruct (fopen_ok env tr "/sys/class/gpio/unexport"); [|done].
    specialize (IH (tr ++ [FileWrite "/sys/class/gpio/unexport" (pretty p)])).
    destruct (for_each _ pins _); [|done].
    by rewrite IH, <- app_assoc.
Qed.

(** The set-up exits exactly when one of its calls fails. *)
Lemma export_pins_calls pins tr :
  match export_pins env pins tr with
  | Ret _ tr' =>
      tr' = tr ++ flat_map export_writes pins /\
      existsb (call_fails env) (export_calls tr pins) = false
  | Exit _ _ => existsb (call_fails env) (export_calls tr pins) = true
  end.
Proof.
  unfold export_pins. revert tr.
  induction pins as [|p pins IH]; intros tr;
    cbn [for_each export_calls flat_map].
  - unfold mret, proc_ret. by rewrite app_nil_r.
  - rewrite existsb_app. cbn [existsb call_fails].
    unfold mbind, proc_bind. rewrite write_to_file_unfold.
    destruct (fopen_ok env tr "/sys/class/gpio/export"); [|done].
    rewrite write_to_file_unfold.
    destruct (fopen_ok env _ (gpio_file p "direction")); [|done].
    rewrite write_to_file_unfold, <- (app_assoc tr). cbn [app].
    destruct (fopen_ok env _ (gpio_file p "edge")); [|done].
    rewrite <- (app_assoc tr). cbn [app negb orb].
    specialize (IH (tr ++ export_writes p)).
    unfold export_writes in *.
    destruct (for_each _ pins _) as [[] tr'|st tr']; [|done].
    destruct IH as [-> IH]. split; [|done].
    by rewrite <- app_assoc.
Qed.

Lemma open_values_calls pins tr :
  match open_values env pins tr with
  | Ret _ tr' =>
      tr' = tr /\
      existsb (call_fails env)
        (map (fun p => CallOpenValue tr (gpio_file p "value")) pins) = false
  | Exit _ _ =>
      existsb (call_fails env)
        (map (fun p => CallOpenValue tr (gpio_file p "value")) pins) = true
  end.
Proof.
  induction pins as [|p pins IH]; cbn [open_values map existsb call_fails].
  - done.
  - destruct (open_fd env tr (gpio_file p "value") <? 0); [done|].
    unfold mbind, proc_bind. cbn [orb].
    by destruct (open_values env pins tr).
Qed.

Lemma setup_calls_outcome :
  match setup env [] with
  | Ret _ _ => existsb (call_fails env) (setup_calls env) = false
  | Exit _ _ => existsb (call_fails env) (setup_calls env) = true
  end.
Proof.
  unfold setup, setup_calls. rewrite !existsb_app.
  cbn [existsb call_fails]. unfold mbind, proc_bind.
  pose proof (export_pins_calls (table_pins mappings) []) as Hexp.
  destruct (export_pins env (table_pins mappings) []) as [[] tr1|];
    [|by rewrite Hexp].
  destruct Hexp as [-> ->]. rewrite app_nil_l. cbn [orb].
  unfold open_uinput.
  set (exported := flat_map export_writes (table_pins mappings)).
  set (ufd := open_fd env exported "/dev/uinput").
  rewrite Z.leb_antisym.
  destruct (0 <? ufd); [|done]. cbn [negb orb].
  pose proof (open_values_calls (table_pins mappings)
                (uinput_ready exported ufd)) as Hval.
  unfold uinput_ready in *.
  destruct (open_values env (table_pins mappings) _); [|done].
  by destruct Hval as [_ ->].
Qed.

(** C7.  If any call of the set-up fails (the [fopen] of a pin's
    [export], [direction] or [edge] file, the [open] of [/dev/uinput], the
    [open] of a pin's [value] file), the process exits there with status
    255: the run is the set-up up to the failure, and its trace holds no
    write to [unexport] and no [close], whatever was exported before.  If
    no call fails, the set-up completes and the loop runs until the quit
    signal is seen; the tear-down then unexports pins 20 and 21 and closes
    the uinput descriptor, and the status is 0. *)
Theorem process_exit_status cycles :
  if existsb (call_fails env) (setup_calls env)
  then
    exists tr,
      setup env [] = Exit 255 tr /\ run env cycles = (255, tr) /\
      no_cleanup tr
  else
    exists ufd tr,
      setup env [] = Ret ufd tr /\
      let tr1 := out (poll_loop mappings (table_pins mappings) EDGE ufd cycles
                        {| start := time_now env;
                           ticks := replicate MAX_PINS 0;
                           out := tr |}) in
      match cleanup env ufd tr1 with
      | Ret _ tr2 =>
          run env cycles = (0, tr2) /\
          tr2 = tr1 ++ [FileWrite "/sys/class/gpio/unexport" "20";
                        FileWrite "/sys/class/gpio/unexport" "21";
                        Close ufd]
      | Exit st tr2 => run env cycles = (st, tr2) /\ st <> 0
      end.
Proof.
  pose proof (triple_setup [] ltac:(constructor)) as Hsetup.
  pose proof setup_calls_outcome as Hcalls.
  unfold run, main, mbind, proc_bind.
  destruct (setup env []) as [ufd tr|st tr]; rewrite Hcalls.
  - exists ufd, tr. split; [done|].
    unfold run_loop. cbv zeta.
    set (tr1 := out (poll_loop _ _ _ _ _ _)).
    unfold cleanup, mbind, proc_bind.
    pose proof (unexport_pins_outcome (table_pins mappings) tr1) as Hun.
    destruct (unexport_pins env (table_pins mappings) tr1) as [[] tr'|st tr'].
    + unfold close_uinput, emit, mret, proc_ret. split; [done|].
      rewrite Hun, <- app_assoc. done.
    + split; [done|]. by rewrite Hun.
  - destruct Hsetup as [-> Hno]. exists tr. done.
Qed.

End Setup.

(** * The properties on the program's own table *)




Lemma debounce_per_line_witness :
  ticks (service 0 (wakeup_at 1000 2000 level_low) (fresh 1000)) !! 1%nat
  = ticks (fresh 1000) !! 1%nat.
Proof.
  apply (debounce_per_line mappings [20; 21] EDGE 3 0%nat 1%nat
           (wakeup_at 1000 2000 level_low) (fresh 1000)).
  lia.
Defined.

(** C3, as stated, fails.  Three interrupts of pin 20 at 2000, 2200 and
    2400 ms after start-up are consecutively 200 ms apart, less than the
    300 ms bounce window.  The first is accepted and the second is
    rejected, but the third is accepted as well (2400 - 2000 > 300): its
    time is stored and the space-bar keystrokes, four writes, are sent a
    second time. *)
Lemma burst_third_accepted :
  spaced_within BOUNCE_MSEC
    [total_msec (wakeup_at 1000 2000 level_low) 1000;
     total_msec (wakeup_at 1000 2200 level_low) 1000;
     total_msec (wakeup_at 1000 2400 level_low) 1000]
  /\ ticks burst_s1 !! 0%nat = Some 2000
  /\ burst_s2 = burst_s1
  /\ ticks burst_s3 !! 0%nat = Some 2400
  /\ out burst_s3 = out burst_s2 ++ button_pressed mappings 3 20 0
  /\ length (out burst_s3) = (length (out burst_s2) + 4)%nat.
Proof. vm_compute. repeat split; discriminate. Qed.

(** Two more interrupts within 300 ms of an accepted press change
    nothing. *)
Lemma burst_lockout_witness :
  ticks (service 0 (wakeup_at 1000 2000 level_low) (fresh 1000)) !! 0%nat
  = Some (total_msec (wakeup_at 1000 2000 level_low) (start (fresh 1000))) /\
  service_burst mappings [20; 21] EDGE 3 0
    [wakeup_at 1000 2120 level_low; wakeup_at 1000 2300 level_high]
    (service 0 (wakeup_at 1000 2000 level_low) (fresh 1000))
  = service 0 (wakeup_at 1000 2000 level_low) (fresh 1000).
Proof.
  apply (burst_lockout mappings [20; 21] EDGE 3 0%nat
           (wakeup_at 1000 2000 level_low)
           [wakeup_at 1000 2120 level_low; wakeup_at 1000 2300 level_high]
           (fresh 1000)).
  - apply fresh_ticks_ok.
  - unfold MAX_PINS. lia.
  - vm_compute. reflexivity.
  - vm_compute. reflexivity.
  - vm_compute. reflexivity.
  - repeat constructor; vm_compute; congruence.
Defined.

(** C2 fails on the code.  Pin 20 is pressed 60 s after start-up and
    accepted.  The wall clock then jumps two years ahead; the interrupt
    that meets the jump resets [start] and is dropped, and [ticks] keeps
    the 60000 ms measured against the old anchor.  A press 2 s after the
    new anchor, past the start-up grace, is rejected (2000 - 60000 is not
    above 300) and writes nothing, while the same reading on pin 21, which
    had no earlier press, is accepted. *)
Lemma stale_ticks_after_clock_reset :
  ticks jump_s1 !! 0%nat = Some 60000
  /\ start jump_s2 = jump_base
  /\ ticks jump_s2 = ticks jump_s1
  /\ out jump_s2 = out jump_s1
  /\ clock_changed (time_check (wakeup_at jump_base 2000 level_low))
       (start jump_s2) = false
  /\ total_msec (wakeup_at jump_base 2000 level_low) (start jump_s2) = 2000
  /\ service 0 (wakeup_at jump_base 2000 level_low) jump_s2 = jump_s2
  /\ ticks (service 1 (wakeup_at jump_base 2000 level_low) jump_s2) !! 1%nat
     = Some 2000.
Proof. vm_compute. repeat split; reflexivity. Qed.


(** The chord of pin 21: eight writes. *)
Lemma emit_sequence_order_witness :
  out (service 1 (wakeup_at 1000 2000 level_low) (fresh 1000))
  = out (fresh 1000) ++
    flat_map (fun k => [DevWrite 3 (key_event k); DevWrite 3 syn_event])
      [Z.lor KEY_LEFTCTRL DOWN; Z.lor KEY_R DOWN;
       Z.lor KEY_R UP; Z.lor KEY_LEFTCTRL UP].
Proof.
  refine (proj1 (emit_sequence_order mappings [20; 21] EDGE 3 1%nat
                   (wakeup_at 1000 2000 level_low) (fresh 1000)
                   {| pin := 21; keys := key_ctrl_r |}
                   [Z.lor KEY_LEFTCTRL DOWN; Z.lor KEY_R DOWN;
                    Z.lor KEY_R UP; Z.lor KEY_LEFTCTRL UP] [] _ _ _ _ _ _)).
  - vm_compute. reflexivity.
  - vm_compute. reflexivity.
  - vm_compute. reflexivity.
  - vm_compute. reflexivity.
  - reflexivity.
  - repeat constructor; vm_compute; discriminate.
Defined.

Example chord_writes :
  out (service 1 (wakeup_at 1000 2000 level_low) (fresh 1000))
  = [DevWrite 3 {| ie_type := EV_KEY; ie_code := KEY_LEFTCTRL; ie_value := 1 |};
     DevWrite 3 syn_event;
     DevWrite 3 {| ie_type := EV_KEY; ie_code := KEY_R; ie_value := 1 |};
     DevWrite 3 syn_event;
     DevWrite 3 {| ie_type := EV_KEY; ie_code := KEY_R; ie_value := 0 |};
     DevWrite 3 syn_event;
     DevWrite 3 {| ie_type := EV_KEY; ie_code := KEY_LEFTCTRL; ie_value := 0 |};
     DevWrite 3 syn_event].
Proof. vm_compute. reflexivity. Qed.

(** Pin 22 is not in the table. *)
Lemma unmapped_pin_logged_witness :
  get_mapping mappings 22 = None /\
  service_pin mappings [20; 22] EDGE 3 1
    (wakeup_at 1000 2000 level_low) (fresh 1000)
  = {| start := start (fresh 1000);
       ticks := <[1%nat := total_msec (wakeup_at 1000 2000 level_low)
                             (start (fresh 1000))]> (ticks (fresh 1000));
       out := out (fresh 1000) ++ [Stderr (NoMapping 22)] |}.
Proof.
  pose proof (unmapped_pin_logged mappings [20; 22] EDGE 3 1%nat
                (wakeup_at 1000 2000 level_low) (fresh 1000) 22) as H.
  destruct H as (H1 & H2 & _).
  - repeat constructor; vm_compute; discriminate.
  - reflexivity.
  - vm_compute. reflexivity.
  - vm_compute. reflexivity.
  - vm_compute. reflexivity.
  - split; [exact H1 | exact H2].
Defined.

(** The three kinds of failure of the set-up, each found among
    [setup_calls]; in the environment where nothing fails none is. *)
Example setup_calls_failing :
  existsb (call_fails env_no_edge21) (setup_calls env_no_edge21) = true /\
  existsb (call_fails env_no_uinput) (setup_calls env_no_uinput) = true /\
  existsb (call_fails env_no_value21) (setup_calls env_no_value21) = true /\
  existsb (call_fails env_ok) (setup_calls env_ok) = false.
Proof. vm_compute. repeat split. Qed.

Example run_uinput_failure cycles :
  run env_no_uinput cycles
  = (255, flat_map export_writes [20; 21] ++ [Stderr CantOpenUinput]).
Proof. reflexivity. Qed.

Example run_value_failure cycles :
  run env_no_value21 cycles
  = (255, setup_ok_trace
          ++ [Stderr (CantOpenGpio "/sys/class/gpio/gpio21/value")]).
Proof. reflexivity. Qed.

(** With pin 20 already exported, the failure on pin 21 ends the process
    with status 255 and without an [unexport]. *)
Example run_setup_failure cycles :
  run env_no_edge21 cycles
  = (255, [FileWrite "/sys/class/gpio/export" "20";
           FileWrite "/sys/class/gpio/gpio20/direction" "in";
           FileWrite "/sys/class/gpio/gpio20/edge" "both";
           FileWrite "/sys/class/gpio/export" "21";
           FileWrite "/sys/class/gpio/gpio21/direction" "in";
           Stderr (CantWrite "/sys/class/gpio/gpio21/edge")]).
Proof. reflexivity. Qed.

(** A run that is cancelled before any interrupt. *)
Example run_graceful :
  run env_ok []
  = (0, [FileWrite "/sys/class/gpio/export" "20";
         FileWrite "/sys/class/gpio/gpio20/direction" "in";
         FileWrite "/sys/class/gpio/gpio20/edge" "both";
         FileWrite "/sys/class/gpio/export" "21";
         FileWrite "/sys/class/gpio/gpio21/direction" "in";
         FileWrite "/sys/class/gpio/gpio21/edge" "both";
         SetEvBit 3 EV_KEY;
         SetKeyBit 3 KEY_SPACE; SetKeyBit 3 KEY_SPACE;
         SetKeyBit 3 KEY_LEFTCTRL; SetKeyBit 3 KEY_R;
         SetKeyBit 3 KEY_R; SetKeyBit 3 KEY_LEFTCTRL;
         DevSetup 3 BUS_USB 0x1234 0x5678 "Dummy input device";
         DevCreate 3;
         FileWrite "/sys/class/gpio/unexport" "20";
         FileWrite "/sys/class/gpio/unexport" "21";
         Close 3]).
Proof. vm_compute. reflexivity. Qed.

(** * Further properties of the code *)

(** ** The mapping table *)

Lemma table_entries_nonzero tbl :
  Forall (fun m => pin m <> 0) (table_entries tbl).
Proof.
  induction tbl as [|a tbl IH]; simpl; [constructor|].
  destruct (Z.eqb_spec (pin a) 0); by constructor.
Qed.

(** [get_mapping] finds [m] exactly when [m] is the first entry before the
    terminator whose pin is the one looked up. *)
Theorem get_mapping_Some_iff tbl p m :
  get_mapping tbl p = Some m <->
  exists pre rest, table_entries tbl = pre ++ m :: rest /\ pin m = p /\
                   Forall (fun m' => pin m' <> p) pre.
Proof.
  induction tbl as [|a tbl IH]; simpl.
  - split; [done|]. intros (pre & rest & H & _). by destruct pre.
  - destruct (Z.eqb_spec (pin a) 0) as [Hz|Hz].
    + split; [done|]. intros (pre & rest & H & _). by destruct pre.
    + destruct (Z.eqb_spec p (pin a)) as [->|Hne].
      * split.
        -- intros [= <-]. exists [], (table_entries tbl). by repeat split.
        -- intros (pre & rest & H & Hp & Hpre).
           destruct pre as [|b pre]; simpl in H.
           ++ by injection H as ->.
           ++ injection H as <- _. by apply Forall_cons in Hpre as [? _].
      * rewrite IH. split.
        -- intros (pre & rest & H & Hp & Hpre).
           exists (a :: pre), rest. rewrite H. repeat split; [done|].
           constructor; [congruence|done].
        -- intros (pre & rest & H & Hp & Hpre).
           destruct pre as [|b pre]; simpl in H.
           ++ injection H as -> _. congruence.
           ++ injection H as <- H. exists pre, rest.
              by apply Forall_cons in Hpre as [_ ?].
Qed.

(** [get_mapping] returns [NULL] exactly when no entry before the
    terminator names the pin; pin 0, the terminator's own, is never
    found. *)
Theorem get_mapping_None_iff tbl p :
  (get_mapping tbl p = None <->
   Forall (fun m => pin m <> p) (table_entries tbl)) /\
  get_mapping tbl 0 = None.
Proof.
  split; [split; [|apply get_mapping_None]|].
  - induction tbl as [|a tbl IH]; simpl; [constructor|].
    destruct (Z.eqb_spec (pin a) 0); [constructor|].
    destruct (Z.eqb_spec p (pin a)); [done|].
    intros H. constructor; [congruence|by apply IH].
  - apply get_mapping_None. apply table_entries_nonzero.
Qed.

(** Every pin [main] polls has a mapping. *)
Lemma table_pins_mapped tbl p :
  p ∈ table_pins tbl -> exists m, get_mapping tbl p = Some m.
Proof.
  unfold table_pins. induction tbl as [|a tbl IH]; simpl.
  - intros H. by apply elem_of_nil in H.
  - destruct (Z.eqb_spec (pin a) 0); simpl.
    + intros H. by apply elem_of_nil in H.
    + intros [->|H]%elem_of_cons.
      * rewrite Z.eqb_refl. eauto.
      * destruct (Z.eqb_spec p (pin a)); eauto.
Qed.

(** The inner loops over a [keys] array read the entries before its first
    zero and nothing after it. *)
Theorem keystrokes_stops_at_zero ks :
  Forall (fun k => k <> 0) (keystrokes ks) /\
  (keystrokes ks = ks \/ exists rest, ks = keystrokes ks ++ 0 :: rest).
Proof.
  induction ks as [|k ks [IH1 IH2]]; simpl; [by split; [constructor|left]|].
  destruct (Z.eqb_spec k 0) as [->|Hk].
  - split; [constructor|]. right. by exists ks.
  - split; [by constructor|].
    destruct IH2 as [->|[rest Hrest]]; [by left|].
    right. exists rest. simpl. by rewrite <- Hrest.
Qed.

(** ** The level file *)

Lemma char_code_inj b1 b2 : char_code b1 = char_code b2 -> b1 = b2.
Proof.
  unfold char_code. intros H%N2Z.inj.
  pose proof (Byte.of_to_N b1) as H1. pose proof (Byte.of_to_N b2) as H2.
  rewrite H in H1. congruence.
Qed.

Lemma get_pin_state_two b1 b2 :
  get_pin_state (Some [b1; b2]) = char_code b1 - 48.
Proof. reflexivity. Qed.

Lemma get_pin_state_not_two avail :
  (forall b1 b2, avail <> Some [b1; b2]) -> get_pin_state avail = -1.
Proof.
  intros H. destruct avail as [[|b1 [|b2 [|b3 r]]]|]; try reflexivity.
  by destruct (H b1 b2).
Qed.

(** [get_pin_state] returns 0 exactly when the file delivers two bytes of
    which the first is the digit 0, and 1 exactly when it delivers two
    bytes of which the first is the digit 1; the second byte is not
    looked at. *)
Theorem get_pin_state_level avail :
  (get_pin_state avail = 0 <-> exists b, avail = Some ["0"%byte; b]) /\
  (get_pin_state avail = 1 <-> exists b, avail = Some ["1"%byte; b]).
Proof.
  assert (Hcase : (exists b1 b2, avail = Some [b1; b2]) \/
                  (forall b1 b2, avail <> Some [b1; b2])).
  { destruct avail as [[|b1 [|b2 [|b3 r]]]|]; try (by right).
    left. by exists b1, b2. }
  destruct Hcase as [(b1 & b2 & ->)|Hno].
  - rewrite get_pin_state_two. split.
    + split.
      * intros H0. exists b2. do 2 f_equal.
        apply char_code_inj. change (char_code "0"%byte) with 48. lia.
      * intros [b [= -> ->]]. reflexivity.
    + split.
      * intros H1. exists b2. do 2 f_equal.
        apply char_code_inj. change (char_code "1"%byte) with 49. lia.
      * intros [b [= -> ->]]. reflexivity.
  - rewrite (get_pin_state_not_two _ Hno).
    split; (split; [done|]); intros [b ->];
      exfalso; by eapply Hno.
Qed.

(** ** Key codes *)

Lemma testbit_12_small c : 0 <= c < 0x1000 -> Z.testbit c 12 = false.
Proof.
  intros Hc. destruct (Z.eq_dec c 0) as [->|Hnz]; [done|].
  apply Z.bits_above_log2; [lia|].
  apply Z.log2_lt_pow2; lia.
Qed.

(** A scan code that fits the low byte goes through the table encoding
    unchanged: tagged [DOWN] it is written as a press of that code, tagged
    [UP] as a release of that code. *)
Theorem keycode_round_trip ufd c :
  0 <= c <= 0xFF ->
  emit_keystroke ufd (Z.lor c DOWN)
  = [DevWrite ufd {| ie_type := EV_KEY; ie_code := c; ie_value := 1 |};
     DevWrite ufd syn_event] /\
  emit_keystroke ufd (Z.lor c UP)
  = [DevWrite ufd {| ie_type := EV_KEY; ie_code := c; ie_value := 0 |};
     DevWrite ufd syn_event].
Proof.
  intros Hc. rewrite !emit_keystroke_spec. unfold key_event.
  assert (Hlow : Z.land c 0xFF = c) by (rewrite land_0xFF, Z.mod_small; lia).
  assert (Hbit : Z.testbit c 12 = false) by (apply testbit_12_small; lia).
  split.
  - rewrite Z.land_lor_distr_l, Hlow. change (Z.land DOWN 0xFF) with 0.
    rewrite Z.lor_0_r, Z.lor_spec, Hbit. done.
  - unfold UP. rewrite Z.lor_0_r, Hlow, Hbit. done.
Qed.

Lemma button_pressed_elem tbl ufd p st a :
  a ∈ button_pressed tbl ufd p st ->
  (exists m k, get_mapping tbl p = Some m /\ k ∈ keystrokes (keys m) /\
               (a = DevWrite ufd (key_event k) \/ a = DevWrite ufd syn_event))
  \/ (get_mapping tbl p = None /\ a = Stderr (NoMapping p)).
Proof.
  unfold button_pressed. destruct (get_mapping tbl p) as [m|] eqn:Hm.
  - intros Ha. left. apply list_elem_of_In, in_flat_map in Ha as (k & Hk & Ha).
    rewrite emit_keystroke_spec in Ha. exists m, k.
    split; [done|]. split; [by apply list_elem_of_In|].
    simpl in Ha. destruct Ha as [<-|[<-|[]]]; eauto.
  - intros ->%list_elem_of_singleton. by right.
Qed.

Lemma get_mapping_Some_In tbl p m :
  get_mapping tbl p = Some m -> In m (table_entries tbl).
Proof.
  induction tbl as [|a tbl IH]; simpl; [done|].
  destruct (pin a =? 0); [done|].
  destruct (p =? pin a).
  - intros [= ->]. by left.
  - intros H. right. by apply IH.
Qed.

(** Every key record [button_pressed] can write, for any pin, carries a
    code that [open_uinput] declared with [UI_SET_KEYBIT] for the same
    table, and declared before the device was created. *)
Theorem emitted_keys_declared env tbl tr ufd tr' p st ie :
  open_uinput env tbl tr = Ret ufd tr' ->
  DevWrite ufd ie ∈ button_pressed tbl ufd p st ->
  ie_type ie = EV_KEY ->
  exists pre post, tr' = pre ++ SetKeyBit ufd (ie_code ie) :: post /\
                   DevCreate ufd ∈ post.
Proof.
  intros Hopen Hin Hkey.
  apply button_pressed_elem in Hin as [(m & k & Hm & Hk & Ha)|[_ ?]]; [|done].
  destruct Ha as [[= ->]|[= ->]]; [|done].
  assert (Hdecl : SetKeyBit ufd (Z.land k 0xFF) ∈ declare_keys ufd tbl).
  { unfold declare_keys. apply list_elem_of_In, in_flat_map.
    exists m. split.
    - by apply (get_mapping_Some_In tbl p).
    - apply (in_map (fun k0 => SetKeyBit ufd (Z.land k0 0xFF))).
      by apply list_elem_of_In. }
  apply list_elem_of_split in Hdecl as (d1 & d2 & Hd).
  unfold open_uinput in Hopen.
  destruct (0 <? open_fd env tr "/dev/uinput"); [|done].
  injection Hopen as <- <-.
  set (u := open_fd env tr "/dev/uinput") in *.
  exists (tr ++ [SetEvBit u EV_KEY] ++ d1),
         (d2 ++ [DevSetup u BUS_USB 4660 22136 "Dummy input device";
                 DevCreate u]).
  split.
  - rewrite Hd. cbn [key_event ie_code]. by rewrite <- !app_assoc.
  - apply elem_of_app. right. apply list_elem_of_further, list_elem_of_here.
Qed.

(** ** What the loop writes *)

Lemma button_pressed_loop_action tbl ufd p st :
  Forall (loop_action ufd) (button_pressed tbl ufd p st).
Proof.
  apply Forall_forall. intros a Ha.
  apply button_pressed_elem in Ha as [(m & k & _ & _ & [->| ->])|[_ ->]].
  - left. left. eauto.
  - left. by right.
  - right. eauto.
Qed.

Lemma button_pressed_device_write tbl ufd p st m :
  get_mapping tbl p = Some m ->
  Forall (device_write ufd) (button_pressed tbl ufd p st).
Proof.
  intros Hm. apply Forall_forall. intros a Ha.
  apply button_pressed_elem in Ha as [(m' & k & _ & _ & [->| ->])|[? _]].
  - left. eauto.
  - by right.
  - congruence.
Qed.

(** One run of the loop body appends to the trace, and what it appends is
    the output of [button_pressed] for the pin, or nothing. *)
Lemma service_pin_out tbl pins edge ufd (i : nat) w s :
  out (service_pin tbl pins edge ufd i w s) = out s \/
  exists st, out (service_pin tbl pins edge ufd i w s)
             = out s ++ button_pressed tbl ufd (pins !!! i) st.
Proof.
  unfold service_pin. destruct (clock_changed _ _); [by left|].
  destruct (debounce_ok _ _); [|by left]. cbn [out].
  destruct (edge_match _ _); [right; eauto | by left].
Qed.

(** Folding a step that appends actions satisfying [P]. *)
Lemma foldl_appends {B} (P : Action -> Prop) (f : Loop -> B -> Loop)
    (l : list B) (Q : B -> Prop) :
  (forall s x, Q x -> exists added,
      out (f s x) = out s ++ added /\ Forall P added) ->
  Forall Q l ->
  forall s, exists added, out (foldl f s l) = out s ++ added /\ Forall P added.
Proof.
  intros Hstep Hl. induction Hl as [|x l Hx _ IH]; intros s; simpl.
  - exists []. by rewrite app_nil_r.
  - destruct (Hstep s x Hx) as (a1 & H1 & HP1).
    destruct (IH (f s x)) as (a2 & H2 & HP2).
    exists (a1 ++ a2). rewrite H2, H1, <- app_assoc.
    split; [done|]. by apply Forall_app.
Qed.

(** For any table and any [pins] array, the loop never removes or
    rewrites an action of the trace and never writes to a sysfs file:
    whatever it adds to the trace is a key or report record written to the
    uinput descriptor, or the "no mapping" message.  (What the loop reads,
    the [value] files that [get_pin_state] opens, reads and closes
    included, is not part of the trace.) *)
Theorem poll_loop_appends tbl pins edge ufd cycles s :
  exists added,
    out (poll_loop tbl pins edge ufd cycles s) = out s ++ added /\
    Forall (loop_action ufd) added.
Proof.
  unfold poll_loop.
  apply (foldl_appends (loop_action ufd) _ cycles (fun _ => True));
    [|by apply Forall_true].
  intros s0 revents _. unfold service_cycle.
  apply (foldl_appends (loop_action ufd) _ _ (fun _ => True));
    [|by apply Forall_true].
  intros s1 i _. destruct (revents !! i) as [[w|]|];
    try (exists []; by rewrite app_nil_r).
  destruct (service_pin_out tbl pins edge ufd i w s1) as [->|[st ->]].
  - exists []. by rewrite app_nil_r.
  - eexists. split; [done|]. apply button_pressed_loop_action.
Qed.

(** When the [pins] array is the one [main] builds from the table, every
    polled pin has a mapping: the loop adds device records only, and the
    "no mapping" message is never printed. *)
Theorem poll_loop_device_only tbl edge ufd cycles s :
  exists added,
    out (poll_loop tbl (table_pins tbl) edge ufd cycles s) = out s ++ added /\
    Forall (device_write ufd) added.
Proof.
  unfold poll_loop.
  apply (foldl_appends (device_write ufd) _ cycles (fun _ => True));
    [|by apply Forall_true].
  intros s0 revents _. unfold service_cycle.
  apply (foldl_appends (device_write ufd) _ _
           (fun i => (i < length (table_pins tbl))%nat)).
  - intros s1 i Hi. destruct (revents !! i) as [[w|]|];
      try (exists []; by rewrite app_nil_r).
    destruct (service_pin_out tbl (table_pins tbl) edge ufd i w s1)
      as [->|[st ->]].
    + exists []. by rewrite app_nil_r.
    + eexists. split; [done|].
      destruct (lookup_lt_is_Some_2 (table_pins tbl) i Hi) as [p Hp].
      rewrite (list_lookup_total_correct _ _ _ Hp).
      destruct (table_pins_mapped tbl p) as [m Hm].
      { by apply list_elem_of_lookup_2 in Hp. }
      by apply (button_pressed_device_write _ _ _ _ m).
  - apply Forall_forall. intros i Hi%elem_of_seq. lia.
Qed.

(** ** Stored times *)

Lemma advanced_refl t : advanced t t.
Proof. by left. Qed.

Lemma advanced_trans t1 t2 t3 :
  advanced t1 t2 -> advanced t2 t3 -> advanced t1 t3.
Proof. unfold advanced, BOUNCE_MSEC. lia. Qed.

Lemma service_pin_advanced tbl pins edge ufd (i j : nat) w s :
  ticks_ok s ->
  advanced (ticks s !!! j) (ticks (service_pin tbl pins edge ufd i w s) !!! j).
Proof.
  intros Hok. unfold service_pin.
  destruct (clock_changed _ _); [apply advanced_refl|].
  destruct (debounce_ok _ _) eqn:Hd; [|apply advanced_refl].
  cbn [ticks].
  destruct (decide (i = j)) as [->|Hne];
    [|rewrite list_lookup_total_insert_ne by done; apply advanced_refl].
  destruct (decide (j < length (ticks s))%nat) as [Hlt|Hge];
    [|rewrite list_insert_ge by lia; apply advanced_refl].
  rewrite list_lookup_total_insert_eq by done.
  right. apply debounce_ok_spec; [apply total_msec_range| |done].
  by apply ticks_ok_lookup.
Qed.

(** Over any run of the loop from a state [main] can reach, clock resets
    included, the stored time of a pin is either what it was or more than
    [BOUNCE_MSEC] above it (and above the 1000 ms grace): stored times
    never go back, and two different values stored for one pin are more
    than the bounce window apart. *)
Theorem ticks_only_advance tbl pins edge ufd cycles (j : nat) s :
  ticks_ok s ->
  advanced (ticks s !!! j)
           (ticks (poll_loop tbl pins edge ufd cycles s) !!! j).
Proof.
  unfold poll_loop. revert s.
  induction cycles as [|revents cycles IH]; intros s Hok; simpl;
    [apply advanced_refl|].
  eapply advanced_trans; [|apply IH; by apply service_cycle_ticks_ok].
  clear IH. unfold service_cycle.
  generalize (seq 0 (length pins)) as idx. intros idx. revert s Hok.
  induction idx as [|i idx IH]; intros s Hok; simpl; [apply advanced_refl|].
  destruct (revents !! i) as [[w|]|]; [|by apply IH..].
  eapply advanced_trans; [by apply service_pin_advanced|].
  apply IH. by apply service_pin_ticks_ok.
Qed.

(** ** Clock steps that are not resets *)

(** While the wall clock reads no later than [start] (it was stepped back
    by less than a year, or the first second has not passed), every
    interrupt is dropped: nothing is stored and nothing is written.  The
    elapsed time is taken to fit an [int]. *)
Theorem clock_behind_start_rejects tbl pins edge ufd (i : nat) w s :
  clock_changed (time_check w) (start s) = false ->
  tv_sec w <= start s ->
  INT_MIN <= (tv_sec w - start s) * 1000 ->
  0 <= tv_usec w < 1000000 ->
  service_pin tbl pins edge ufd i w s = s.
Proof.
  intros Hclock Hsec Hfit Husec. apply service_pin_rejected; [done|].
  unfold debounce_ok. apply andb_false_iff. right. apply Z.ltb_ge.
  unfold total_msec.
  assert (Hq : 0 <= Z.quot (tv_usec w) 1000 <= 999).
  { rewrite Z.quot_div_nonneg by lia.
    split; [apply Z.div_pos; lia|].
    apply Z.lt_succ_r. apply Z.div_lt_upper_bound; lia. }
  rewrite (to_int_small (Z.quot (tv_usec w) 1000)) by int_bounds.
  rewrite double_to_int_small by int_bounds. lia.
Qed.

(** ** Wake-ups without work *)

(** A return of [poll] on which no pin has [POLLPRI] set (a timeout, or
    other [revents] bits only) leaves the state as it was, and so does any
    number of such returns. *)
Theorem idle_cycles_change_nothing tbl pins edge ufd cycles s :
  Forall (fun revents : list (option Wakeup) =>
            forall (i : nat) w, revents !! i <> Some (Some w)) cycles ->
  poll_loop tbl pins edge ufd cycles s = s.
Proof.
  intros Hidle. unfold poll_loop. apply foldl_unchanged.
  intros revents Hin. unfold service_cycle. apply foldl_unchanged.
  intros i _. rewrite Forall_forall in Hidle. specialize (Hidle _ Hin i).
  destruct (revents !! i) as [[w|]|]; [|done..]. by destruct (Hidle w).
Qed.

(** ** Lock-out after an unmatched level *)

(** An interrupt that passes the debounce test but whose level does not
    match the configured edge (the release of an active-low switch, say)
    still stores its time.  A second interrupt of the pin no more than
    [BOUNCE_MSEC] later is therefore dropped, whatever its level: neither
    of the two writes anything. *)
Theorem unmatched_level_locks_out tbl pins edge ufd (i : nat) w1 w2 s :
  ticks_ok s -> (i < MAX_PINS)%nat ->
  clock_changed (time_check w1) (start s) = false ->
  debounce_ok (total_msec w1 (start s)) (ticks s !!! i) = true ->
  edge_match (get_pin_state (value_avail w1)) edge = false ->
  clock_changed (time_check w2) (start s) = false ->
  total_msec w2 (start s) - total_msec w1 (start s) <= BOUNCE_MSEC ->
  service_pin tbl pins edge ufd i w2 (service_pin tbl pins edge ufd i w1 s)
  = {| start := start s;
       ticks := <[i := total_msec w1 (start s)]> (ticks s);
       out := out s |}.
Proof.
  intros Hok Hi Hc1 Hd1 Hedge Hc2 Hgap.
  assert (Hlen : (i < length (ticks s))%nat) by (destruct Hok as [-> _]; done).
  rewrite (service_pin_accepted _ _ _ _ _ _ _ Hc1 Hd1), Hedge.
  apply service_pin_rejected; cbn [start ticks]; [done|].
  rewrite list_lookup_total_insert_eq by done.
  apply not_true_is_false. intros Hd.
  apply debounce_ok_spec in Hd as [Hd _].
  - lia.
  - apply total_msec_range.
  - pose proof (total_msec_range w1 (start s)).
    apply andb_true_iff in Hd1 as [_ Hd1%Z.ltb_lt]. int_bounds.
Qed.

(** ** Set-up and tear-down *)

Lemma open_values_trace env pins tr fds tr' :
  open_values env pins tr = Ret fds tr' -> tr' = tr.
Proof.
  revert fds. induction pins as [|p pins IH]; intros fds; cbn [open_values].
  - by intros [= _ <-].
  - destruct (open_fd env tr (gpio_file p "value") <? 0); [done|].
    unfold mbind, proc_bind.
    destruct (open_values env pins tr) as [fds0 tr0|] eqn:H0; [|done].
    intros [= _ <-]. by apply (IH fds0).
Qed.

(** When the loop that fills [fdset_base] completes, it has written
    nothing, and it has kept one descriptor per pin, in the order of the
    pins, none of them negative. *)
Theorem open_values_returns env pins tr fds tr' :
  open_values env pins tr = Ret fds tr' ->
  tr' = tr /\
  fds = map (fun p => open_fd env tr (gpio_file p "value")) pins /\
  Forall (fun gpio_fd => 0 <= gpio_fd) fds.
Proof.
  revert fds. induction pins as [|p pins IH]; intros fds; cbn [open_values].
  - intros [= <- <-]. by repeat split.
  - destruct (Z.ltb_spec (open_fd env tr (gpio_file p "value")) 0) as [|Hfd];
      [done|].
    unfold mbind, proc_bind.
    destruct (open_values env pins tr) as [fds0 tr0|]; [|done].
    intros [= <- <-]. destruct (IH fds0 eq_refl) as (-> & -> & Hall).
    repeat split. by constructor.
Qed.

Lemma export_pins_outcome env pins tr :
  match export_pins env pins tr with
  | Ret _ tr' => tr' = tr ++ flat_map export_writes pins
  | Exit st tr' =>
      st = 255 /\
      exists done_ file, tr' = tr ++ done_ ++ [Stderr (CantWrite file)]
  end.
Proof.
  unfold export_pins. revert tr.
  induction pins as [|p pins IH]; intros tr; cbn [for_each flat_map].
  - unfold mret, proc_ret. by rewrite app_nil_r.
  - unfold mbind, proc_bind. rewrite !write_to_file_unfold.
    destruct (fopen_ok env tr _); [|split; [done|by eexists [], _]].
    rewrite !write_to_file_unfold.
    destruct (fopen_ok env _ (gpio_file p "direction"));
      [|split; [done|eexists [_], _; by rewrite <- app_assoc]].
    rewrite !write_to_file_unfold.
    destruct (fopen_ok env _ (gpio_file p "edge"));
      [|split; [done|eexists [_; _], _; by rewrite <- !app_assoc]].
    specialize (IH (((tr ++ [FileWrite "/sys/class/gpio/export" (pretty p)])
                       ++ [FileWrite (gpio_file p "direction") "in"])
                      ++ [FileWrite (gpio_file p "edge") "both"])).
    destruct (for_each _ pins _) as [[] tr'|st tr'].
    + rewrite IH. unfold export_writes. by rewrite <- !app_assoc.
    + destruct IH as [-> (d & f & ->)]. split; [done|].
      exists (export_writes p ++ d), f. unfold export_writes.
      by rewrite <- !app_assoc.
Qed.

(** When the set-up completes, the descriptor it returns is positive and
    the trace is exactly: the three sysfs writes of each pin of the table,
    in table order, then [UI_SET_EVBIT], the key declarations, the device
    set-up and the device creation.  No pin is left half exported and
    uinput is not opened before the last pin is exported. *)
Theorem setup_returns env ufd tr :
  setup env [] = Ret ufd tr ->
  0 < ufd /\
  tr = flat_map export_writes (table_pins mappings)
       ++ [SetEvBit ufd EV_KEY] ++ declare_keys ufd mappings
       ++ [DevSetup ufd BUS_USB 0x1234 0x5678 "Dummy input device";
           DevCreate ufd].
Proof.
  unfold setup, mbind, proc_bind.
  pose proof (export_pins_outcome env (table_pins mappings) []) as Hexp.
  destruct (export_pins env (table_pins mappings) []) as [[] tr1|]; [|done].
  rewrite app_nil_l in Hexp. subst tr1.
  unfold open_uinput.
  destruct (Z.ltb_spec 0 (open_fd env (flat_map export_writes (table_pins mappings))
                            "/dev/uinput")) as [Hfd|]; [|done].
  match goal with |- context [open_values env ?ps ?t] =>
    pose proof (open_values_trace env ps t) as Hval;
    destruct (open_values env ps t) as [fds tr2|]; [|done] end.
  rewrite (Hval fds tr2 eq_refl).
  unfold mret, proc_ret. intros [= <- <-]. split; [done|].
  by rewrite <- ?app_assoc.
Qed.

Lemma unexport_pins_exit env pins tr st tr' :
  unexport_pins env pins tr = Exit st tr' ->
  st = 255 /\
  exists done_, tr' = tr ++ done_
                      ++ [Stderr (CantWrite "/sys/class/gpio/unexport")].
Proof.
  unfold unexport_pins. revert tr.
  induction pins as [|p pins IH]; intros tr; cbn [for_each]; [done|].
  unfold mbind, proc_bind. rewrite write_to_file_unfold.
  destruct (fopen_ok env tr "/sys/class/gpio/unexport").
  - intros H. destruct (IH _ H) as [-> [d ->]]. split; [done|].
    eexists (_ :: d). by rewrite <- !app_assoc.
  - intros [= <- <-]. split; [done|]. by exists [].
Qed.

(** If, after the quit signal, the [unexport] file cannot be opened, the
    process exits with status 255 from inside the tear-down: no pin is
    unexported and the uinput descriptor is never closed. *)
Theorem teardown_failure_skips_close env cycles ufd tr :
  setup env [] = Ret ufd tr ->
  fopen_ok env
    (out (poll_loop mappings (table_pins mappings) EDGE ufd cycles
            {| start := time_now env; ticks := replicate MAX_PINS 0;
               out := tr |}))
    "/sys/class/gpio/unexport" = false ->
  run env cycles
  = (255,
     out (poll_loop mappings (table_pins mappings) EDGE ufd cycles
            {| start := time_now env; ticks := replicate MAX_PINS 0;
               out := tr |})
     ++ [Stderr (CantWrite "/sys/class/gpio/unexport")]).
Proof.
  intros Hsetup Hfail. unfold run, main, mbind, proc_bind.
  rewrite Hsetup. unfold run_loop, cleanup, mbind, proc_bind.
  change (table_pins mappings) with [20; 21] in *.
  unfold unexport_pins. cbn [for_each]. unfold mbind, proc_bind.
  by rewrite write_to_file_unfold, Hfail.
Qed.

(** The exit status is 0 or 255, and it is 0 exactly when the last thing
    the process did was to close the uinput descriptor. *)
Theorem exit_status_values env cycles :
  (fst (run env cycles) = 0 \/ fst (run env cycles) = 255) /\
  (fst (run env cycles) = 0 <->
   exists tr0 ufd, snd (run env cycles) = tr0 ++ [Close ufd]).
Proof.
  pose proof (triple_setup env [] ltac:(constructor)) as Hsetup.
  unfold run, main, mbind, proc_bind.
  destruct (setup env []) as [ufd tr|st tr].
  - unfold run_loop, cleanup, mbind, proc_bind.
    set (tr1 := out (poll_loop _ _ _ _ _ _)).
    destruct (unexport_pins env (table_pins mappings) tr1) as [[] tr2|st tr2]
      eqn:Hun.
    + unfold close_uinput, emit, mret, proc_ret. cbn [fst snd].
      split; [by left|]. split; [eauto|done].
    + apply unexport_pins_exit in Hun as [-> [d ->]]. cbn [fst snd].
      split; [by right|]. split; [done|].
      intros (tr0 & u & H). rewrite !app_assoc in H.
      by apply app_inj_tail in H as [_ ?].
  - destruct Hsetup as [-> Hno]. cbn [fst snd].
    split; [by right|]. split; [done|].
    intros (tr0 & u & ->). apply Forall_app in Hno as [_ Hno].
    by apply Forall_cons in Hno as [? _].
Qed.

(** ** The loop as a whole *)

(** From the state in which [main] enters the loop, whatever the wake-ups,
    [ticks] keeps its [MAX_PINS] entries and every entry stays a
    non-negative [int].  Hence, for an elapsed time above the 1000 ms
    grace, the subtraction [total_msec - ticks[i]] of the debounce test
    stays within [int]. *)
Theorem loop_keeps_ticks_in_range tbl pins edge ufd cycles st tr :
  ticks_ok (poll_loop tbl pins edge ufd cycles
              {| start := st; ticks := replicate MAX_PINS 0; out := tr |}) /\
  forall (i : nat) total,
    int_range total -> total > 1000 ->
    int_range
      (total - ticks (poll_loop tbl pins edge ufd cycles
                        {| start := st; ticks := replicate MAX_PINS 0;
                           out := tr |}) !!! i).
Proof.
  assert (Hok : ticks_ok (poll_loop tbl pins edge ufd cycles
              {| start := st; ticks := replicate MAX_PINS 0; out := tr |}))
    by apply poll_loop_ticks_ok, initial_ticks_ok.
  split; [done|]. intros i total Hr Hgrace.
  pose proof (ticks_ok_lookup _ i Hok). int_bounds.
Qed.

(** Interrupts of a single pin [i], one per return of [poll] with no
    other pin pending, run the loop body once each, for that pin and in
    order of arrival. *)
Theorem single_pin_cycles_are_a_burst tbl pins edge ufd (i : nat) ws s :
  (i < length pins)%nat ->
  poll_loop tbl pins edge ufd (map (only_pin (length pins) i) ws) s
  = foldl (fun s0 w => service_pin tbl pins edge ufd i w s0) s ws.
Proof. apply poll_loop_only_pin. Qed.

(** Over one whole return of [poll], however many pins are serviced, a
    pin whose [revents] lacks [POLLPRI] keeps its stored time. *)
Theorem idle_pin_keeps_time tbl pins edge ufd revents (j : nat) s :
  (forall w, revents !! j <> Some (Some w)) ->
  ticks (service_cycle tbl pins edge ufd revents s) !! j = ticks s !! j.
Proof. apply service_cycle_other_lines. Qed.

(** * The further properties on the program's own table *)

Lemma keycode_round_trip_witness :
  emit_keystroke 3 (Z.lor KEY_SPACE DOWN)
  = [DevWrite 3 {| ie_type := EV_KEY; ie_code := KEY_SPACE; ie_value := 1 |};
     DevWrite 3 syn_event] /\
  emit_keystroke 3 (Z.lor KEY_SPACE UP)
  = [DevWrite 3 {| ie_type := EV_KEY; ie_code := KEY_SPACE; ie_value := 0 |};
     DevWrite 3 syn_event].
Proof. apply (keycode_round_trip 3 KEY_SPACE). unfold KEY_SPACE. lia. Defined.

(** The press of R in the chord of pin 21. *)
Lemma emitted_keys_declared_witness :
  exists pre post,
    [SetEvBit 3 EV_KEY] ++ declare_keys 3 mappings
      ++ [DevSetup 3 BUS_USB 0x1234 0x5678 "Dummy input device"; DevCreate 3]
    = pre ++ SetKeyBit 3 KEY_R :: post /\
    DevCreate 3 ∈ post.
Proof.
  apply (emitted_keys_declared env_ok mappings [] 3
           ([SetEvBit 3 EV_KEY] ++ declare_keys 3 mappings
              ++ [DevSetup 3 BUS_USB 0x1234 0x5678 "Dummy input device";
                  DevCreate 3])
           21 0 {| ie_type := EV_KEY; ie_code := KEY_R; ie_value := 1 |}).
  - reflexivity.
  - apply list_elem_of_In. vm_compute. tauto.
  - reflexivity.
Defined.

Lemma ticks_only_advance_witness :
  advanced (ticks (fresh 1000) !!! 0%nat)
    (ticks (poll_loop mappings [20; 21] EDGE 3
              [[Some (wakeup_at 1000 2000 level_low)];
               [Some (wakeup_at 1000 2100 level_low)];
               [Some (wakeup_at 1000 2500 level_low)]]
              (fresh 1000)) !!! 0%nat).
Proof.
  apply (ticks_only_advance mappings [20; 21] EDGE 3
           [[Some (wakeup_at 1000 2000 level_low)];
            [Some (wakeup_at 1000 2100 level_low)];
            [Some (wakeup_at 1000 2500 level_low)]] 0%nat (fresh 1000)).
  apply fresh_ticks_ok.
Defined.

(** Half a second after start-up the clock still reads the second of
    [start]. *)
Lemma clock_behind_start_rejects_witness :
  service 0 (wakeup_at 1000 500 level_low) (fresh 1000) = fresh 1000.
Proof.
  apply (clock_behind_start_rejects mappings [20; 21] EDGE 3 0%nat
           (wakeup_at 1000 500 level_low) (fresh 1000)).
  - vm_compute. reflexivity.
  - vm_compute. discriminate.
  - vm_compute. discriminate.
  - vm_compute. split; [discriminate | reflexivity].
Defined.

Lemma idle_cycles_change_nothing_witness :
  poll_loop mappings [20; 21] EDGE 3 [[None; None]; []] (fresh 1000)
  = fresh 1000.
Proof.
  apply (idle_cycles_change_nothing mappings [20; 21] EDGE 3
           [[None; None]; []] (fresh 1000)).
  repeat constructor; intros [|[|i]] w; discriminate.
Defined.

(** A release 2 s after start-up, then a press 200 ms later. *)
Lemma unmatched_level_locks_out_witness :
  service 0 (wakeup_at 1000 2200 level_low)
    (service 0 (wakeup_at 1000 2000 level_high) (fresh 1000))
  = {| start := start (fresh 1000);
       ticks := <[0%nat := total_msec (wakeup_at 1000 2000 level_high)
                             (start (fresh 1000))]> (ticks (fresh 1000));
       out := out (fresh 1000) |}.
Proof.
  apply (unmatched_level_locks_out mappings [20; 21] EDGE 3 0%nat
           (wakeup_at 1000 2000 level_high) (wakeup_at 1000 2200 level_low)
           (fresh 1000)).
  - apply fresh_ticks_ok.
  - unfold MAX_PINS. lia.
  - vm_compute. reflexivity.
  - vm_compute. reflexivity.
  - vm_compute. reflexivity.
  - vm_compute. reflexivity.
  - vm_compute. discriminate.
Defined.

Lemma open_values_returns_witness :
  @nil Action = [] /\
  [4; 4] = map (fun p => open_fd env_ok [] (gpio_file p "value")) [20; 21] /\
  Forall (fun gpio_fd => 0 <= gpio_fd) [4; 4].
Proof.
  apply (open_values_returns env_ok [20; 21] [] [4; 4] []).
  reflexivity.
Defined.

Lemma setup_returns_witness :
  0 < 3 /\
  setup_ok_trace
  = flat_map export_writes (table_pins mappings)
    ++ [SetEvBit 3 EV_KEY] ++ declare_keys 3 mappings
    ++ [DevSetup 3 BUS_USB 0x1234 0x5678 "Dummy input device"; DevCreate 3].
Proof.
  apply (setup_returns env_ok 3 setup_ok_trace).
  vm_compute. reflexivity.
Defined.

Lemma teardown_failure_skips_close_witness :
  run env_no_unexport []
  = (255,
     out (poll_loop mappings (table_pins mappings) EDGE 3 []
            {| start := time_now env_no_unexport;
               ticks := replicate MAX_PINS 0;
               out := setup_ok_trace |})
     ++ [Stderr (CantWrite "/sys/class/gpio/unexport")]).
Proof.
  apply (teardown_failure_skips_close env_no_unexport [] 3 setup_ok_trace).
  - vm_compute. reflexivity.
  - reflexivity.
Defined.

(** Pin 20 is exported; the [export] file then refuses pin 21. *)
Lemma export_pins_fail_witness :
  export_pins env_one_export ([20] ++ 21 :: []) []
  = Exit 255 (export_writes 20
                ++ [Stderr (CantWrite "/sys/class/gpio/export")]).
Proof.
  apply (export_pins_fail env_one_export [20] 21 [] [] (export_writes 20)).
  - reflexivity.
  - reflexivity.
Defined.

Lemma single_pin_cycles_are_a_burst_witness :
  poll_loop mappings [20; 21] EDGE 3
    (map (only_pin (length [20; 21]) 1)
         [wakeup_at 1000 2000 level_low; wakeup_at 1000 2500 level_low])
    (fresh 1000)
  = foldl (fun s0 w => service_pin mappings [20; 21] EDGE 3 1 w s0)
          (fresh 1000)
          [wakeup_at 1000 2000 level_low; wakeup_at 1000 2500 level_low].
Proof.
  apply (single_pin_cycles_are_a_burst mappings [20; 21] EDGE 3 1%nat
           [wakeup_at 1000 2000 level_low; wakeup_at 1000 2500 level_low]
           (fresh 1000)).
  simpl. lia.
Defined.

Lemma idle_pin_keeps_time_witness :
  ticks (service_cycle mappings [20; 21] EDGE 3
           [Some (wakeup_at 1000 2000 level_low); None] (fresh 1000)) !! 1%nat
  = ticks (fresh 1000) !! 1%nat.
Proof.
  apply (idle_pin_keeps_time mappings [20; 21] EDGE 3
           [Some (wakeup_at 1000 2000 level_low); None] 1%nat (fresh 1000)).
  intros w. discriminate.
Defined.

Lemma loop_keeps_ticks_in_range_witness :
  int_range
    (2500 - ticks (poll_loop mappings [20; 21] EDGE 3
                     [[Some (wakeup_at 1000 2000 level_low)]]
                     {| start := 1000; ticks := replicate MAX_PINS 0;
                        out := [] |}) !!! 0%nat).
Proof.
  apply (proj2 (loop_keeps_ticks_in_range mappings [20; 21] EDGE 3
                  [[Some (wakeup_at 1000 2000 level_low)]] 1000 [])
               0%nat 2500).
  - vm_compute. split; discriminate.
  - vm_compute. reflexivity.
Defined.
